(** * MRzeroCore.sequence: pulses, repetitions, sequences and [chain]

    A shallow embedding of [python/MRzeroCore/sequence.py].

    - A torch tensor is a [Tensor]: its device, its shape and its elements in
      row-major order.
    - The elements of float tensors range over an arbitrary carrier [F] with
      a zero, an addition and a negation ([FloatOps]); no law of arithmetic
      is assumed, and sums are taken from the first event to the last.
      Contrast tags ([adc_usage]) are elements of a signed integer tensor
      of fixed width ([IntDtype], [int32] in [Repetition.zero]): they are
      integers in the range of that type, and adding to them wraps around.
    - A Python exception is a [PyErr]; a call that may raise returns an
      [Exc].  [NoSuchObject] is not an exception of Python: it is what the
      model answers when a reference that was never allocated is read.
    - [Repetition.shift_contrasts] writes into the [adc_usage] tensor of the
      object it is called on.  For a single repetition this is state
      passing ([Repetition_shift_contrasts]); for sequences and [chain],
      repetitions are objects in a [Store] that refer to their [adc_usage]
      tensor, which several objects may share, and a sequence is a list of
      references to objects. *)

From Stdlib Require Import ZArith Lia.
From stdpp Require Import base list sorting gmap.

Local Open Scope Z_scope.

(** ** Exceptions *)

Inductive PyErr : Type :=
  | ValueError
  | IndexError
  | AttributeError
  | RuntimeError
  | NoSuchObject.

Inductive Exc (A : Type) : Type :=
  | Ok (a : A)
  | Raise (e : PyErr).

Arguments Ok {A} a.
Arguments Raise {A} e.

Definition exc_bind {A B : Type} (m : Exc A) (k : A → Exc B) : Exc B :=
  match m with
  | Ok a => k a
  | Raise e => Raise e
  end.

Notation "'let?' x := m 'in' k" := (exc_bind m (λ x, k))
  (at level 10, x pattern, m at level 100, k at level 200).

(** [[f(x) for x in xs]] when [f] may raise: elements are evaluated in list
    order and the first exception wins. *)
Fixpoint exc_map {A B : Type} (f : A → Exc B) (xs : list A) : Exc (list B) :=
  match xs with
  | [] => Ok []
  | x :: xs' =>
      let? y := f x in
      let? ys := exc_map f xs' in
      Ok (y :: ys)
  end.

(** ** Tensors *)

Inductive Device : Type := CPU | CUDA.

Record Tensor (A : Type) : Type := mkTensor {
  device : Device;
  shape : list nat;
  data : list A
}.

Arguments mkTensor {A} device shape data.
Arguments device {A} t.
Arguments shape {A} t.
Arguments data {A} t.

(** [t.numel()] *)
Definition numel {A : Type} (t : Tensor A) : nat :=
  foldr Nat.mul 1%nat (shape t).

(** A tensor holds exactly [numel] elements. *)
Definition tensor_ok {A : Type} (t : Tensor A) : bool :=
  bool_decide (length (data t) = numel t).

(** [torch.cat(parts)] along dimension 0, on the rows of the parts; torch
    refuses an empty list of tensors. *)
Definition torch_cat {A : Type} (parts : list (list A)) : Exc (list A) :=
  match parts with
  | [] => Raise RuntimeError
  | _ :: _ => Ok (concat parts)
  end.

(** [t[mask]] for a boolean mask over dimension 0: the rows at which the mask
    holds; torch raises IndexError when the mask and [t] differ in length. *)
Definition index_mask {A : Type} (rows : list A) (mask : list bool)
    : Exc (list A) :=
  if bool_decide (length mask = length rows)
  then Ok (snd <$> filter (λ mr : bool * A, fst mr = true) (zip mask rows))
  else Raise IndexError.

(** The integer type of the [adc_usage] tensors: a signed type of
    [int_bits] bits, at least 8 as for every integer type of torch. *)
Class IntDtype : Type := {
  int_bits : Z;
  int_bits_ok : (8 <=? int_bits) = true
}.

(** [torch.int32], the type [Repetition.zero] gives to [adc_usage]. *)
#[export] Instance int32 : IntDtype := {| int_bits := 32; int_bits_ok := eq_refl |}.

Definition int_min `{IntDtype} : Z := - 2 ^ (int_bits - 1).

Definition int_max `{IntDtype} : Z := 2 ^ (int_bits - 1) - 1.

(** The values an element of an integer tensor can have. *)
Definition in_range `{IntDtype} (z : Z) : Prop := int_min ≤ z ≤ int_max.

(** Two's complement wrap-around into the range of the type. *)
Definition wrap `{IntDtype} (z : Z) : Z :=
  (z - int_min) mod 2 ^ int_bits + int_min.

(** [x + offset] for an element [x] of an integer tensor and a Python
    integer [offset]: the sum in the tensor's type.  An element is in the
    range of the type; for other [x], which no tensor holds, the sum is left
    as it is. *)
Definition int_add `{IntDtype} (x offset : Z) : Z :=
  if bool_decide (in_range x) then wrap (x + offset) else x + offset.

(** Float carrier. *)
Class FloatOps (F : Type) : Type := {
  fzero : F;
  fadd : F → F → F;
  fneg : F → F
}.

#[export] Instance Z_FloatOps : FloatOps Z :=
  {| fzero := 0; fadd := Z.add; fneg := Z.opp |}.

(** ** Pulses *)

Inductive PulseUsage : Type := UNDEF | EXCIT | REFOC | STORE | FATSAT.

#[export] Instance PulseUsage_eq_dec : EqDecision PulseUsage.
Proof. solve_decision. Defined.

Section Model.
Context {F : Type} {ops : FloatOps F} {dt : IntDtype}.

(** [angle] and [phase] are annotated [float | torch.Tensor]; [__init__]
    stores whichever it is given. *)
Inductive Scalar : Type :=
  | PyFloat (x : F)
  | TorchTensor (t : Tensor F).

Record Pulse : Type := mkPulse {
  usage : PulseUsage;
  angle : Scalar;
  phase : Scalar;
  selective : bool
}.

(** [Pulse.__init__] *)
Definition Pulse_init (usage : PulseUsage) (angle phase : Scalar)
    (selective : bool) : Pulse :=
  mkPulse usage angle phase selective.

(** [Pulse.zero] *)
Definition Pulse_zero : Pulse :=
  Pulse_init UNDEF (PyFloat fzero) (PyFloat fzero) true.

(** [x.clone()]: a method of tensors; a Python float has no such
    attribute. *)
Definition Scalar_clone (x : Scalar) : Exc Scalar :=
  match x with
  | TorchTensor t => Ok (TorchTensor t)
  | PyFloat _ => Raise AttributeError
  end.

(** [Pulse.clone] *)
Definition Pulse_clone (self : Pulse) : Exc Pulse :=
  let? a := Scalar_clone (angle self) in
  let? p := Scalar_clone (phase self) in
  Ok (Pulse_init (usage self) a p (selective self)).

(** ** Repetitions *)

Record Repetition : Type := mkRepetition {
  pulse : Pulse;
  event_count : nat;
  event_time : Tensor F;
  gradm : Tensor F;
  adc_phase : Tensor F;
  adc_usage : Tensor Z
}.

(** [Repetition.__init__]: every failure is a ValueError. *)
Definition Repetition_init (pulse : Pulse) (event_time gradm adc_phase : Tensor F)
    (adc_usage : Tensor Z) : Exc Repetition :=
  if bool_decide (numel event_time = 0%nat) then Raise ValueError
  else
    let event_count := numel event_time in
    if bool_decide (shape event_time ≠ [event_count]) then Raise ValueError
    else if bool_decide (shape gradm ≠ [event_count; 3%nat]) then Raise ValueError
    else if bool_decide (shape adc_phase ≠ [event_count]) then Raise ValueError
    else if bool_decide (shape adc_usage ≠ [event_count]) then Raise ValueError
    else Ok (mkRepetition pulse event_count event_time gradm adc_phase adc_usage).

(** The repetitions that [__init__] returns: consistent shapes, at least one
    event, and tensors that hold as many elements as their shape says. *)
Definition Repetition_ok (rep : Repetition) : bool :=
  bool_decide (1 ≤ event_count rep)%nat
  && bool_decide (shape (event_time rep) = [event_count rep])
  && bool_decide (shape (gradm rep) = [event_count rep; 3%nat])
  && bool_decide (shape (adc_phase rep) = [event_count rep])
  && bool_decide (shape (adc_usage rep) = [event_count rep])
  && tensor_ok (event_time rep) && tensor_ok (gradm rep)
  && tensor_ok (adc_phase rep) && tensor_ok (adc_usage rep).

(** [Repetition.device] *)
Definition Repetition_device (self : Repetition) : Device :=
  device (gradm self).

(** [Repetition.clone]: goes through [__init__] again. *)
Definition Repetition_clone (self : Repetition) : Exc Repetition :=
  let? p := Pulse_clone (pulse self) in
  Repetition_init p (event_time self) (gradm self) (adc_phase self)
    (adc_usage self).

(** [sorted(xs)] and [torch.unique(t).tolist()] *)
Definition sorted (xs : list Z) : list Z := merge_sort Z.le xs.

Definition torch_unique (t : Tensor Z) : list Z := remove_dups (data t).

(** [Repetition.get_contrasts] *)
Definition Repetition_get_contrasts (self : Repetition) : list Z :=
  sorted (torch_unique (adc_usage self)).

(** [t[t > 0] += offset] on the elements of the integer tensor [t]: the
    Python integer [offset] is converted to the type of the tensor and the
    sum is taken in that type, so it wraps around.  torch refuses an
    [offset] that does not fit 64 bits; this is not modelled. *)
Definition masked_add (offset : Z) (xs : list Z) : list Z :=
  (λ x, if bool_decide (x > 0) then int_add x offset else x) <$> xs.

(** The tensor [t] after [t[t > 0] += offset]. *)
Definition tensor_shift (offset : Z) (t : Tensor Z) : Tensor Z :=
  mkTensor (device t) (shape t) (masked_add offset (data t)).

(** [Repetition.shift_contrasts]: the state of the repetition after the
    call. *)
Definition Repetition_shift_contrasts (offset : Z) (self : Repetition)
    : Repetition :=
  let u := adc_usage self in
  mkRepetition (pulse self) (event_count self) (event_time self) (gradm self)
    (adc_phase self) (mkTensor (device u) (shape u) (masked_add offset (data u))).

End Model.

Arguments Scalar F : clear implicits.
Arguments Pulse F : clear implicits.
Arguments Repetition F : clear implicits.

(** ** Sequences: trajectories and masks

    The queries below only read the repetitions, so they are given on the
    values of the repetitions a sequence refers to, in list order. *)

Section Trajectory.
Context {F : Type} {ops : FloatOps F}.

(** A row of a trajectory: three k-space coordinates and the dephasing
    time. *)
Definition Vec4 : Type := (F * F * F * F)%type.

(** [torch.zeros(4)] *)
Definition vzero : Vec4 := (fzero, fzero, fzero, fzero).

Definition vadd (a b : Vec4) : Vec4 :=
  let '(ax, ay, az, at_) := a in
  let '(bx, by_, bz, bt) := b in
  (fadd ax bx, fadd ay by_, fadd az bz, fadd at_ bt).

Definition vneg (a : Vec4) : Vec4 :=
  let '(ax, ay, az, at_) := a in (fneg ax, fneg ay, fneg az, fneg at_).

(** [Sequence.device]: [self[0].device] *)
Definition Sequence_device (self : list (Repetition F)) : Exc Device :=
  match self with
  | [] => Raise IndexError
  | rep :: _ => Ok (Repetition_device rep)
  end.

(** [torch.cat([gradm, event_time[:, None]], 1)] on the row-major elements
    of a [(N, 3)] and a [(N,)] tensor: row [i] is the three elements of
    [gradm]'s row [i] followed by [event_time[i]]. *)
Fixpoint cat_gradm_time (g t : list F) : list Vec4 :=
  match t, g with
  | ti :: t', gx :: gy :: gz :: g' => (gx, gy, gz, ti) :: cat_gradm_time g' t'
  | _, _ => []
  end.

(** [torch.cumsum(rows, dim=0)] *)
Fixpoint cumsum_from (acc : Vec4) (rows : list Vec4) : list Vec4 :=
  match rows with
  | [] => []
  | r :: rows' => let acc' := vadd acc r in acc' :: cumsum_from acc' rows'
  end.

Definition torch_cumsum (rows : list Vec4) : list Vec4 :=
  match rows with
  | [] => []
  | r :: rows' => r :: cumsum_from r rows'
  end.

(** [rows[-1, :]] *)
Definition last_row (rows : list Vec4) : Exc Vec4 :=
  match last rows with
  | Some r => Ok r
  | None => Raise IndexError
  end.

(** One turn of the loop of [get_full_kspace], on the loop's variables
    [(k_pos, stored, trajectory)]. *)
Definition kspace_body (vars : Vec4 * Vec4 * list (list Vec4))
    (rep : Repetition F) : Exc (Vec4 * Vec4 * list (list Vec4)) :=
  let '(k_pos, stored, trajectory) := vars in
  let '(k_pos, stored) :=
    if decide (usage (pulse rep) = EXCIT) then (stored, stored)
    else if decide (usage (pulse rep) = REFOC) then (vneg k_pos, stored)
    else if decide (usage (pulse rep) = STORE) then (k_pos, k_pos)
    else (k_pos, stored) in
  let rep_traj :=
    vadd k_pos <$>
      torch_cumsum (cat_gradm_time (data (gradm rep)) (data (event_time rep))) in
  let? k_pos := last_row rep_traj in
  Ok (k_pos, stored, trajectory ++ [rep_traj]).

(** [for x in xs: vars = body(vars, x)] *)
Fixpoint for_each {S A : Type} (body : S → A → Exc S) (xs : list A) (vars : S)
    : Exc S :=
  match xs with
  | [] => Ok vars
  | x :: xs' => let? vars' := body vars x in for_each body xs' vars'
  end.

(** [Sequence.get_full_kspace] *)
Definition Sequence_get_full_kspace (self : list (Repetition F))
    : Exc (list (list Vec4)) :=
  let? _ := Sequence_device self in
  let k_pos := vzero in
  let trajectory := [] in
  let? _ := Sequence_device self in
  let stored := vzero in
  let? vars := for_each kspace_body self (k_pos, stored, trajectory) in
  Ok (snd vars).

(** [Sequence.get_kspace] *)
Definition Sequence_get_kspace (self : list (Repetition F)) : Exc (list Vec4) :=
  let? full := Sequence_get_full_kspace self in
  let? parts :=
    exc_map
      (λ sr : list Vec4 * Repetition F,
         index_mask (fst sr)
           ((λ u, bool_decide (u > 0)) <$> data (adc_usage (snd sr))))
      (zip full self) in
  torch_cat parts.

(** [Sequence.get_contrast_mask] *)
Definition Sequence_get_contrast_mask (contrast : Z) (self : list (Repetition F))
    : Exc (list bool) :=
  let? parts :=
    exc_map
      (λ rep : Repetition F,
         let? kept :=
           index_mask (data (adc_usage rep))
             ((λ u, bool_decide (u ≠ 0)) <$> data (adc_usage rep)) in
         Ok ((λ u, bool_decide (u = contrast)) <$> kept))
      self in
  torch_cat parts.

(** [Sequence.get_contrasts] *)
Definition Sequence_get_contrasts (self : list (Repetition F)) : list Z :=
  let tmp := rep ← self; Repetition_get_contrasts rep in
  sorted (remove_dups tmp).

(** [max(xs)] of a Python list *)
Definition py_max (xs : list Z) : Exc Z :=
  match xs with
  | [] => Raise ValueError
  | x :: xs' => Ok (foldl Z.max x xs')
  end.

End Trajectory.

Arguments Vec4 F : clear implicits.

(** ** Repetition objects, in-place shifting and [chain]

    A Python [Sequence] is a list of references to [Repetition] objects; the
    same object may occur in several sequences, or several times in one.
    An object refers to its [adc_usage] tensor, and several objects may
    refer to the same tensor: [__init__] keeps the tensor it is given.  The
    only write in this file, [shift_contrasts], goes into that tensor and
    shows in every object that refers to it.  The other tensors of a
    repetition are never written to, so an object holds them by value.  A
    tensor is its own storage: views into the storage of another tensor are
    not modelled. *)

Definition loc : Type := positive.

Section Objects.
Context {F : Type} {ops : FloatOps F} {dt : IntDtype}.

(** A [Repetition] object: its fields, with a reference to the
    [adc_usage] tensor. *)
Record Object : Type := mkObject {
  o_pulse : Pulse F;
  o_event_count : nat;
  o_event_time : Tensor F;
  o_gradm : Tensor F;
  o_adc_phase : Tensor F;
  o_adc_usage : loc
}.

(** The repetition objects and the integer tensors that exist. *)
Record Store : Type := mkStore {
  objects : gmap loc Object;
  tensors : gmap loc (Tensor Z)
}.

(** The value of an object whose [adc_usage] tensor holds [t]. *)
Definition object_value (o : Object) (t : Tensor Z) : Repetition F :=
  mkRepetition (o_pulse o) (o_event_count o) (o_event_time o) (o_gradm o)
    (o_adc_phase o) t.

(** The object with the fields of [rep] and the [adc_usage] tensor [t]. *)
Definition object_of (rep : Repetition F) (t : loc) : Object :=
  mkObject (pulse rep) (event_count rep) (event_time rep) (gradm rep)
    (adc_phase rep) t.

(** The current value of the object behind a reference: its fields, with
    the current contents of its [adc_usage] tensor. *)
Definition load (h : Store) (r : loc) : option (Repetition F) :=
  match objects h !! r with
  | Some o =>
      match tensors h !! o_adc_usage o with
      | Some t => Some (object_value o t)
      | None => None
      end
  | None => None
  end.

#[global] Instance Store_lookup : Lookup loc (Repetition F) Store :=
  λ r h, load h r.

(** The store with the object [r] set to a repetition that has the fields of
    [rep] and an [adc_usage] tensor of its own, a new tensor with the
    contents of [adc_usage rep]. *)
#[global] Instance Store_insert : Insert loc (Repetition F) Store :=
  λ r rep h,
    let t := fresh (dom (tensors h)) in
    mkStore (<[r := object_of rep t]> (objects h))
      (<[t := adc_usage rep]> (tensors h)).

#[global] Instance Store_empty : Empty Store := mkStore ∅ ∅.

(** The store with the object [r] set to a repetition that has the fields of
    the object [r0] and refers to the same [adc_usage] tensor, as after
    [Repetition(p, event_time, gradm, adc_phase, rep0.adc_usage)]. *)
Definition sharing (r r0 : loc) (h : Store) : Store :=
  match objects h !! r0 with
  | Some o => mkStore (<[r := o]> (objects h)) (tensors h)
  | None => h
  end.

(** A computation over the store. *)
Definition Py (A : Type) : Type := Store → Exc (A * Store).

Definition py_ret {A : Type} (a : A) : Py A := λ h, Ok (a, h).

Definition py_bind {A B : Type} (m : Py A) (k : A → Py B) : Py B :=
  λ h, match m h with
       | Ok (a, h') => k a h'
       | Raise e => Raise e
       end.

Definition py_lift {A : Type} (m : Exc A) : Py A :=
  λ h, match m with
       | Ok a => Ok (a, h)
       | Raise e => Raise e
       end.

Notation "'let!' x := m 'in' k" := (py_bind m (λ x, k))
  (at level 10, x pattern, m at level 100, k at level 200).

(** Reading the object behind a reference. *)
Definition get_object (r : loc) : Py (Repetition F) :=
  λ h, match h !! r with
       | Some rep => Ok (rep, h)
       | None => Raise NoSuchObject
       end.

(** A constructor call on tensors that were just made ([clone()],
    [torch.zeros]): the result is a new object with an [adc_usage] tensor
    of its own. *)
Definition new_object (rep : Repetition F) : Py loc :=
  λ h, let r := fresh (dom (objects h)) in Ok (r, <[r := rep]> h).

(** [Repetition.shift_contrasts] on the object behind [self]: the write
    goes into the tensor the object refers to. *)
Definition shift_contrasts_in_place (offset : Z) (self : loc) : Py () :=
  λ h, match objects h !! self with
       | Some o =>
           match tensors h !! o_adc_usage o with
           | Some t =>
               Ok ((), mkStore (objects h)
                         (<[o_adc_usage o := tensor_shift offset t]> (tensors h)))
           | None => Raise NoSuchObject
           end
       | None => Raise NoSuchObject
       end.

(** The values of the repetitions of a sequence, in order. *)
Fixpoint get_objects (self : list loc) : Py (list (Repetition F)) :=
  match self with
  | [] => py_ret []
  | r :: self' =>
      let! rep := get_object r in
      let! reps := get_objects self' in
      py_ret (rep :: reps)
  end.

(** [Sequence.clone]: [Sequence(rep.clone() for rep in self)] *)
Fixpoint Sequence_clone (self : list loc) : Py (list loc) :=
  match self with
  | [] => py_ret []
  | r :: self' =>
      let! rep := get_object r in
      let! copy := py_lift (Repetition_clone rep) in
      let! r' := new_object copy in
      let! rest := Sequence_clone self' in
      py_ret (r' :: rest)
  end.

(** [Sequence.shift_contrasts] *)
Fixpoint Sequence_shift_contrasts (offset : Z) (self : list loc) : Py () :=
  match self with
  | [] => py_ret ()
  | r :: self' =>
      let! _ := shift_contrasts_in_place offset r in
      Sequence_shift_contrasts offset self'
  end.

(** The loop of [chain] on its variables [combined] and [contrast_offset]. *)
Fixpoint chain_loop (oneshot : bool) (sequences : list (list loc))
    (combined : list loc) (contrast_offset : Z) : Py (list loc) :=
  match sequences with
  | [] => py_ret combined
  | seq :: sequences' =>
      let! temp := Sequence_clone seq in
      let! _ := Sequence_shift_contrasts contrast_offset temp in
      let! contrast_offset :=
        if negb oneshot then
          let! reps := get_objects temp in
          py_lift (py_max (Sequence_get_contrasts reps))
        else py_ret contrast_offset in
      chain_loop oneshot sequences' (combined ++ temp) contrast_offset
  end.

(** [chain]: the sequences are the positional arguments, in call order. *)
Definition chain (oneshot : bool) (sequences : list (list loc)) : Py (list loc) :=
  chain_loop oneshot sequences [] 0.

End Objects.

Arguments Object F : clear implicits.
Arguments Store F : clear implicits.
Arguments Py F A : clear implicits.

(** ** The behaviour the specification describes

    These definitions follow the wording of the specification; the theorems
    below compare them with the functions above. *)

Section Reference.
Context {F : Type} {ops : FloatOps F} {dt : IntDtype}.

(** Step 1, the adjustment of the carried-in [(k_pos, stored)] by the pulse
    usage. *)
Definition pulse_adjust (u : PulseUsage) (k_pos stored : Vec4 F)
    : Vec4 F * Vec4 F :=
  match u with
  | EXCIT => (stored, stored)
  | REFOC => (vneg k_pos, stored)
  | STORE => (k_pos, k_pos)
  | UNDEF | FATSAT => (k_pos, stored)
  end.

Definition elem (xs : list F) (i : nat) : F := default fzero (xs !! i).

(** The 4-vector of event [i]: its gradient moment, then its duration. *)
Definition event_delta (rep : Repetition F) (i : nat) : Vec4 F :=
  (elem (data (gradm rep)) (3 * i), elem (data (gradm rep)) (3 * i + 1),
   elem (data (gradm rep)) (3 * i + 2), elem (data (event_time rep)) i).

Definition event_deltas (rep : Repetition F) : list (Vec4 F) :=
  event_delta rep <$> seq 0 (event_count rep).

(** The sum of a run of 4-vectors, from the first to the last. *)
Definition vsum (ds : list (Vec4 F)) : Vec4 F :=
  match ds with
  | [] => vzero
  | d :: ds' => foldl vadd d ds'
  end.

(** Entry [i] is the sum of the entries [0..i]. *)
Definition inclusive_cumsum (ds : list (Vec4 F)) : list (Vec4 F) :=
  (λ i, vsum (take (S i) ds)) <$> seq 0 (length ds).

(** The offset of a repetition's trajectory and the trajectory itself, from
    the carried-in state. *)
Definition rep_trajectory (k_pos : Vec4 F) (rep : Repetition F) : list (Vec4 F) :=
  vadd k_pos <$> inclusive_cumsum (event_deltas rep).

(** Steps 1 to 4, repetition after repetition. *)
Fixpoint reference_kspace (k_pos stored : Vec4 F) (reps : list (Repetition F))
    : list (list (Vec4 F)) :=
  match reps with
  | [] => []
  | rep :: reps' =>
      let '(k, s) := pulse_adjust (usage (pulse rep)) k_pos stored in
      let traj := rep_trajectory k rep in
      traj :: reference_kspace (default k (last traj)) s reps'
  end.

(** A trajectory restricted to the events with [adc_usage > 0]. *)
Definition measured (traj : list (Vec4 F)) (rep : Repetition F) : list (Vec4 F) :=
  snd <$> filter (λ ur : Z * Vec4 F, 0 < fst ur) (zip (data (adc_usage rep)) traj).

(** The number of events with [adc_usage > 0] in a sequence. *)
Definition measured_count (reps : list (Repetition F)) : nat :=
  sum_list ((λ rep, length (filter (λ u : Z, 0 < u) (data (adc_usage rep)))) <$> reps).

(** The booleans [adc_usage == contrast] over the entries with
    [adc_usage != 0]. *)
Definition contrast_flags (contrast : Z) (rep : Repetition F) : list bool :=
  (λ u, bool_decide (u = contrast)) <$> filter (λ u : Z, u ≠ 0) (data (adc_usage rep)).

(** All tags of a sequence, and the positive ones. *)
Definition tags (reps : list (Repetition F)) : list Z :=
  rep ← reps; data (adc_usage rep).

Definition positive_tags (reps : list (Repetition F)) : list Z :=
  filter (λ c : Z, 0 < c) (tags reps).

(** The largest element of a list of tags (of a list that has one). *)
Definition max_of (xs : list Z) : Z :=
  match xs with
  | [] => 0
  | x :: xs' => foldr Z.max x xs'
  end.

(** What [chain] without [oneshot] appends for each of its arguments: the
    argument shifted by the running offset, the offset then being the
    largest tag of the shifted argument. *)
Fixpoint chain_blocks (offset : Z) (seqs : list (list (Repetition F)))
    : list (list (Repetition F)) :=
  match seqs with
  | [] => []
  | s :: seqs' =>
      let s' := Repetition_shift_contrasts offset <$> s in
      s' :: chain_blocks (max_of (tags s')) seqs'
  end.

(** A pulse whose angle and phase are tensors. *)
Definition Pulse_has_tensors (p : Pulse F) : bool :=
  match angle p, phase p with
  | TorchTensor _, TorchTensor _ => true
  | _, _ => false
  end.

(** The values of the objects a list of references points to. *)
Definition values (h : Store F) (refs : list loc)
    : list (Repetition F) :=
  omap (λ r, h !! r) refs.

(** Every reference of every argument points to a repetition as
    [Repetition.__init__] returns it, with a pulse that holds tensors. *)
Definition chain_args_ok (h : Store F)
    (sequences : list (list loc)) : bool :=
  forallb
    (forallb (λ r, match h !! r with
                   | Some rep => Repetition_ok rep && Pulse_has_tensors (pulse rep)
                   | None => false
                   end))
    sequences.

(** No positive tag of [reps], shifted by [offset], exceeds the largest
    value of the integer type. *)
Definition shift_fits (offset : Z) (reps : list (Repetition F)) : bool :=
  forallb
    (λ rep, forallb (λ u, bool_decide (u > 0 → u + offset ≤ int_max))
              (data (adc_usage rep)))
    reps.

(** No tag that [chain] shifts exceeds the largest value of the integer
    type, along the offsets of [chain_blocks]. *)
Fixpoint chain_fits (offset : Z) (seqs : list (list (Repetition F))) : bool :=
  match seqs with
  | [] => true
  | s :: seqs' =>
      shift_fits offset s
      && chain_fits
           (max_of (tags (Repetition_shift_contrasts offset <$> s))) seqs'
  end.

(** [h'] has every object and every tensor of [h], unchanged. *)
Definition store_le (h h' : Store F) : Prop :=
  objects h ⊆ objects h' ∧ tensors h ⊆ tensors h'.

(** The [adc_usage] tensor the object behind [r] refers to. *)
Definition tensor_of (h : Store F) (r : loc) : option loc :=
  o_adc_usage <$> objects h !! r.

(** How many entries of a sequence refer, through their object, to the
    tensor [t]. *)
Definition tensor_uses (h : Store F) (t : loc) (refs : list loc) : nat :=
  length (filter (λ r, tensor_of h r = Some t) refs).

(** A reference to a repetition as [Repetition.__init__] returns it, with a
    pulse that holds tensors. *)
Definition object_ok (h : Store F) (r : loc) : Prop :=
  ∃ rep, h !! r = Some rep ∧ Repetition_ok rep = true
         ∧ Pulse_has_tensors (pulse rep) = true.

End Reference.

(** ** Device transfer, zero repetitions and [new_rep] *)

(** The conversion of an element to [torch.float]. *)
Class FloatCast (F : Type) : Type := to_float : F → F.

#[export] Instance Z_FloatCast : FloatCast Z := λ x, x.

(** [t.cpu()]: the same shape and elements, on the CPU. *)
Definition tensor_cpu {A : Type} (t : Tensor A) : Tensor A :=
  mkTensor CPU (shape t) (data t).

(** [torch.zeros(size)]: a CPU tensor; torch refuses a negative dimension. *)
Definition torch_zeros {A : Type} (zero : A) (size : list Z) : Exc (Tensor A) :=
  if bool_decide (Forall (λ n, 0 ≤ n) size)
  then Ok (mkTensor CPU (Z.to_nat <$> size)
             (replicate (foldr Nat.mul 1%nat (Z.to_nat <$> size)) zero))
  else Raise RuntimeError.

Section Transfer.
Context {F : Type} {ops : FloatOps F} {cast : FloatCast F} {dt : IntDtype}.

(** [torch.as_tensor(x, dtype=torch.float)]: a Python float becomes a
    0-dimensional CPU tensor, a tensor keeps its device and shape. *)
Definition as_float_tensor (x : Scalar F) : Tensor F :=
  match x with
  | PyFloat v => mkTensor CPU [] [to_float v]
  | TorchTensor t => mkTensor (device t) (shape t) (to_float <$> data t)
  end.

(** [Pulse.cpu] *)
Definition Pulse_cpu (self : Pulse F) : Pulse F :=
  Pulse_init (usage self)
    (TorchTensor (tensor_cpu (as_float_tensor (angle self))))
    (TorchTensor (tensor_cpu (as_float_tensor (phase self))))
    (selective self).

(** [Repetition.cpu] *)
Definition Repetition_cpu (self : Repetition F) : Exc (Repetition F) :=
  Repetition_init (Pulse_cpu (pulse self)) (tensor_cpu (event_time self))
    (tensor_cpu (gradm self)) (tensor_cpu (adc_phase self))
    (tensor_cpu (adc_usage self)).

(** [Sequence.cpu], on the values of the repetitions. *)
Definition Sequence_cpu (self : list (Repetition F)) : Exc (list (Repetition F)) :=
  exc_map Repetition_cpu self.

(** [Repetition.cpu] on the object behind [self].  [Tensor.cpu()] returns
    the tensor itself when it is on the CPU and a copy on the CPU
    otherwise, so the new object refers to the [adc_usage] tensor of [self]
    when that tensor is on the CPU. *)
Definition Repetition_cpu_object (self : loc) : Py F loc :=
  λ h, match objects h !! self with
       | Some o =>
           match tensors h !! o_adc_usage o with
           | Some t =>
               let? rep := Repetition_cpu (object_value o t) in
               let r := fresh (dom (objects h)) in
               match device t with
               | CPU =>
                   Ok (r, mkStore
                            (<[r := object_of rep (o_adc_usage o)]> (objects h))
                            (tensors h))
               | CUDA => Ok (r, <[r := rep]> h)
               end
           | None => Raise NoSuchObject
           end
       | None => Raise NoSuchObject
       end.

(** [Sequence.cpu] on the objects of a sequence:
    [Sequence([rep.cpu() for rep in self])] *)
Fixpoint Sequence_cpu_objects (self : list loc) : Py F (list loc) :=
  match self with
  | [] => py_ret []
  | r :: self' =>
      py_bind (Repetition_cpu_object r) (λ r',
      py_bind (Sequence_cpu_objects self') (λ rest,
      py_ret (r' :: rest)))
  end.

(** A reference to a repetition as [Repetition.__init__] returns it, with
    its [adc_usage] on the CPU. *)
Definition cpu_built (h : Store F) (r : loc) : Prop :=
  ∃ rep, h !! r = Some rep ∧ Repetition_ok rep = true
         ∧ device (adc_usage rep) = CPU.

Definition on_cpu (h : Store F) (refs : list loc) : bool :=
  forallb (λ r, match h !! r with
                | Some rep =>
                    Repetition_ok rep
                    && match device (adc_usage rep) with
                       | CPU => true
                       | CUDA => false
                       end
                | None => false
                end)
    refs.

(** [Repetition.zero] *)
Definition Repetition_zero (event_count : Z) : Exc (Repetition F) :=
  let p := Pulse_zero in
  let? et := torch_zeros fzero [event_count] in
  let? gm := torch_zeros fzero [event_count; 3] in
  let? ap := torch_zeros fzero [event_count] in
  let? au := torch_zeros 0 [event_count] in
  Repetition_init p et gm ap au.

(** [Sequence.new_rep]: the new repetition and the contents of [self] after
    the [append]. *)
Definition Sequence_new_rep (event_count : Z) (self : list loc)
    : Py F (loc * list loc) :=
  py_bind (py_lift (Repetition_zero event_count)) (λ rep,
  py_bind (new_object rep) (λ r,
  py_ret (r, self ++ [r]))).

(** The carried-in [(k_pos, stored)] after the repetitions [reps], by the
    steps 1 to 3 of the reference recurrence. *)
Fixpoint carried_state (k_pos stored : Vec4 F) (reps : list (Repetition F))
    : Vec4 F * Vec4 F :=
  match reps with
  | [] => (k_pos, stored)
  | rep :: reps' =>
      let '(k, s) := pulse_adjust (usage (pulse rep)) k_pos stored in
      carried_state (default k (last (rep_trajectory k rep))) s reps'
  end.

(** Two repetitions with the same pulse usage, durations and gradient
    moments, and the same measured events. *)
Definition same_events (rep rep' : Repetition F) : Prop :=
  usage (pulse rep) = usage (pulse rep')
  ∧ data (gradm rep) = data (gradm rep')
  ∧ data (event_time rep) = data (event_time rep')
  ∧ (λ u, bool_decide (u > 0)) <$> data (adc_usage rep) =
    (λ u, bool_decide (u > 0)) <$> data (adc_usage rep').

(** Every reference of a sequence points to a repetition as
    [Repetition.__init__] returns it. *)
Definition built (h : Store F) (r : loc) : Prop :=
  ∃ rep, h !! r = Some rep ∧ Repetition_ok rep = true.

Definition sequences_built (h : Store F)
    (sequences : list (list loc)) : bool :=
  forallb
    (forallb (λ r, match h !! r with
                   | Some rep => Repetition_ok rep
                   | None => false
                   end))
    sequences.

End Transfer.

(** ** Concrete repetitions over integer-valued floats *)

(** A repetition on the CPU with the given pulse usage, durations, gradient
    moments (row-major) and tags; the pulse holds 0-dimensional tensors. *)
Definition example_rep (u : PulseUsage) (times grads : list Z) (usages : list Z)
    : Repetition Z :=
  let n := length times in
  mkRepetition
    (Pulse_init u (TorchTensor (mkTensor CPU [] [0])) (TorchTensor (mkTensor CPU [] [0])) true)
    n (mkTensor CPU [n] times) (mkTensor CPU [n; 3%nat] grads)
    (mkTensor CPU [n] (replicate n 0)) (mkTensor CPU [n] usages).

(** ** Construction of pulses and repetitions *)

Section Construction.
Context {F : Type} {ops : FloatOps F}.

Lemma numel_vector {A : Type} (t : Tensor A) (n : nat) :
  shape t = [n] → numel t = n.
Proof. unfold numel. intros ->. simpl. lia. Qed.

(** When the four shapes fit, [__init__] stores its arguments. *)
Lemma Repetition_init_fits (p : Pulse F) (et gm ap : Tensor F) (au : Tensor Z)
    (N : nat) :
  (1 ≤ N)%nat → shape et = [N] → shape gm = [N; 3%nat] → shape ap = [N] →
  shape au = [N] →
  Repetition_init p et gm ap au = Ok (mkRepetition p N et gm ap au).
Proof.
  intros HN Het Hgm Hap Hau. unfold Repetition_init.
  rewrite (numel_vector et N Het).
  rewrite bool_decide_eq_false_2 by lia.
  rewrite !bool_decide_eq_false_2; [done | | | |]; intros Hne; by apply Hne.
Qed.

Lemma Repetition_init_Ok (p : Pulse F) (et gm ap : Tensor F) (au : Tensor Z)
    (rep : Repetition F) :
  Repetition_init p et gm ap au = Ok rep →
  rep = mkRepetition p (numel et) et gm ap au
  ∧ (1 ≤ numel et)%nat ∧ shape et = [numel et] ∧ shape gm = [numel et; 3%nat]
  ∧ shape ap = [numel et] ∧ shape au = [numel et].
Proof.
  unfold Repetition_init.
  repeat case_bool_decide; try discriminate.
  intros [= <-].
  repeat split; try done; try lia; by apply dec_stable.
Qed.

(** C8: [Repetition.__init__] returns a repetition exactly when
    [event_time] has shape [(N,)] for some [N ≥ 1], [gradm] has shape
    [(N, 3)] and [adc_phase] and [adc_usage] have shape [(N,)]; it raises
    ValueError otherwise, and a repetition it returns stores the arguments
    with [event_count = N], so its timelines have consistent lengths. *)
Theorem Repetition_init_succeeds_iff (p : Pulse F) (et gm ap : Tensor F)
    (au : Tensor Z) :
  ((∃ rep, Repetition_init p et gm ap au = Ok rep) ↔
   (∃ N, (1 ≤ N)%nat ∧ shape et = [N] ∧ shape gm = [N; 3%nat]
         ∧ shape ap = [N] ∧ shape au = [N]))
  ∧ match Repetition_init p et gm ap au with
    | Ok rep =>
        rep = mkRepetition p (numel et) et gm ap au
        ∧ (1 ≤ event_count rep)%nat
        ∧ shape (event_time rep) = [event_count rep]
        ∧ shape (gradm rep) = [event_count rep; 3%nat]
        ∧ shape (adc_phase rep) = [event_count rep]
        ∧ shape (adc_usage rep) = [event_count rep]
    | Raise e => e = ValueError
    end.
Proof.
  split.
  - split.
    + intros [rep Hrep]. apply Repetition_init_Ok in Hrep.
      exists (numel et). tauto.
    + intros (N & HN & Het & Hgm & Hap & Hau).
      eexists. by apply Repetition_init_fits.
  - destruct (Repetition_init p et gm ap au) as [rep|e] eqn:Hinit.
    + apply Repetition_init_Ok in Hinit.
      destruct Hinit as (-> & HN & Het & Hgm & Hap & Hau). by simpl.
    + revert Hinit. unfold Repetition_init.
      repeat case_bool_decide; congruence.
Qed.

(** A repetition built from tensors that hold as many elements as their
    shapes say satisfies [Repetition_ok]. *)
Lemma Repetition_init_ok (p : Pulse F) (et gm ap : Tensor F) (au : Tensor Z)
    (rep : Repetition F) :
  tensor_ok et = true → tensor_ok gm = true → tensor_ok ap = true →
  tensor_ok au = true →
  Repetition_init p et gm ap au = Ok rep → Repetition_ok rep = true.
Proof.
  intros Het Hgm Hap Hau Hinit. apply Repetition_init_Ok in Hinit.
  destruct Hinit as (-> & HN & Hs1 & Hs2 & Hs3 & Hs4).
  unfold Repetition_ok. simpl.
  rewrite Het, Hgm, Hap, Hau.
  rewrite !bool_decide_eq_true_2; done.
Qed.

Lemma Repetition_ok_inv (rep : Repetition F) :
  Repetition_ok rep = true →
  (1 ≤ event_count rep)%nat
  ∧ shape (event_time rep) = [event_count rep]
  ∧ shape (gradm rep) = [event_count rep; 3%nat]
  ∧ shape (adc_phase rep) = [event_count rep]
  ∧ shape (adc_usage rep) = [event_count rep]
  ∧ length (data (event_time rep)) = event_count rep
  ∧ length (data (gradm rep)) = (event_count rep * 3)%nat
  ∧ length (data (adc_phase rep)) = event_count rep
  ∧ length (data (adc_usage rep)) = event_count rep.
Proof.
  unfold Repetition_ok, tensor_ok. rewrite !andb_true_iff, !bool_decide_eq_true.
  intros ((((((((HN & H1) & H2) & H3) & H4) & L1) & L2) & L3) & L4).
  rewrite L1, L2, L3, L4. unfold numel. rewrite H1, H2, H3, H4. simpl.
  repeat split; auto; lia.
Qed.

(** A pulse that holds tensors is cloned field by field. *)
Lemma Pulse_clone_tensors (p : Pulse F) :
  Pulse_has_tensors p = true → Pulse_clone p = Ok p.
Proof.
  destruct p as [u a ph s]. unfold Pulse_has_tensors, Pulse_clone. simpl.
  destruct a, ph; try discriminate. done.
Qed.

(** C9, at the pulse [Pulse.zero()] returns: its [angle] is the Python
    float [0.0], which has no [clone], so [Pulse.clone] raises
    AttributeError instead of returning a copy. *)
Theorem Pulse_zero_clone_raises :
  Pulse_clone (Pulse_zero (F:=F)) = Raise AttributeError.
Proof. reflexivity. Qed.

(** A repetition as [__init__] returns it, with a pulse that holds tensors,
    is cloned into an equal repetition. *)
Lemma Repetition_clone_ok (rep : Repetition F) :
  Repetition_ok rep = true → Pulse_has_tensors (pulse rep) = true →
  Repetition_clone rep = Ok rep.
Proof.
  intros Hok Hp. apply Repetition_ok_inv in Hok.
  destruct Hok as (HN & H1 & H2 & H3 & H4 & _).
  unfold Repetition_clone. rewrite (Pulse_clone_tensors _ Hp). simpl.
  rewrite (Repetition_init_fits _ _ _ _ _ (event_count rep)) by done.
  by destruct rep.
Qed.

End Construction.

(** ** The trajectory of a sequence *)

Section TrajectoryProofs.
Context {F : Type} {ops : FloatOps F}.

Implicit Types (rep : Repetition F) (reps self : list (Repetition F)).
Implicit Types (k_pos stored : Vec4 F) (rows ds : list (Vec4 F)).

Lemma forallb_Forall_ok reps :
  forallb Repetition_ok reps = true → Forall (λ rep, Repetition_ok rep = true) reps.
Proof.
  induction reps as [|rep reps IH]; simpl; [constructor|].
  rewrite andb_true_iff. intros [Hrep Hreps]. constructor; auto.
Qed.

(** The rows of [cat([gradm, event_time[:, None]], 1)] are the events'
    4-vectors. *)
Lemma cat_gradm_time_rows (t g : list F) :
  length g = (length t * 3)%nat →
  cat_gradm_time g t =
    (λ i, (elem g (3 * i), elem g (3 * i + 1), elem g (3 * i + 2), elem t i))
      <$> seq 0 (length t).
Proof.
  revert g. induction t as [|ti t IH]; intros g Hlen; [by destruct g|].
  destruct g as [|gx [|gy [|gz g]]]; simpl in Hlen; try lia.
  cbn [cat_gradm_time length seq fmap list_fmap]. f_equal.
  rewrite IH by lia. rewrite <- fmap_S_seq, <- list_fmap_compose.
  apply list_fmap_ext. intros _ i _. unfold elem, compose.
  by replace (3 * S i)%nat with (S (S (S (3 * i)))) by lia.
Qed.

Lemma cat_gradm_time_deltas rep :
  Repetition_ok rep = true →
  cat_gradm_time (data (gradm rep)) (data (event_time rep)) = event_deltas rep.
Proof.
  intros Hok. apply Repetition_ok_inv in Hok.
  destruct Hok as (_ & _ & _ & _ & _ & Lt & Lg & _).
  rewrite cat_gradm_time_rows by lia.
  unfold event_deltas, event_delta. by rewrite Lt.
Qed.

(** The running sum is the inclusive cumulative sum. *)
Lemma cumsum_from_prefix_sums (acc : Vec4 F) rows :
  cumsum_from acc rows =
    (λ i, foldl vadd acc (take (S i) rows)) <$> seq 0 (length rows).
Proof.
  revert acc. induction rows as [|r rows IH]; intros acc; [done|].
  cbn [cumsum_from length seq fmap list_fmap]. f_equal.
  rewrite IH, <- fmap_S_seq, <- list_fmap_compose.
  by apply list_fmap_ext.
Qed.

Lemma torch_cumsum_inclusive rows : torch_cumsum rows = inclusive_cumsum rows.
Proof.
  destruct rows as [|r rows]; [done|].
  unfold torch_cumsum, inclusive_cumsum.
  cbn [length seq fmap list_fmap]. f_equal.
  rewrite cumsum_from_prefix_sums, <- fmap_S_seq, <- list_fmap_compose.
  by apply list_fmap_ext.
Qed.

Lemma length_inclusive_cumsum ds : length (inclusive_cumsum ds) = length ds.
Proof. unfold inclusive_cumsum. by rewrite length_fmap, length_seq. Qed.

Lemma length_rep_trajectory k_pos rep :
  length (rep_trajectory k_pos rep) = event_count rep.
Proof.
  unfold rep_trajectory, event_deltas.
  by rewrite length_fmap, length_inclusive_cumsum, length_fmap, length_seq.
Qed.

(** The [if]/[elif] chain on the pulse usage is the adjustment of step 1. *)
Lemma usage_dispatch (u : PulseUsage) k_pos stored :
  (if decide (u = EXCIT) then (stored, stored)
   else if decide (u = REFOC) then (vneg k_pos, stored)
   else if decide (u = STORE) then (k_pos, k_pos)
   else (k_pos, stored)) = pulse_adjust u k_pos stored.
Proof. by destruct u. Qed.

Lemma last_row_nonempty rows :
  rows ≠ [] → ∃ r, last rows = Some r ∧ last_row rows = Ok r.
Proof.
  intros Hne. unfold last_row.
  destruct (last rows) as [r|] eqn:Hlast; [eauto|].
  by apply last_None in Hlast.
Qed.

(** One turn of the loop, on a repetition that [__init__] returned. *)
Lemma kspace_body_ok k_pos stored (trajectory : list (list (Vec4 F))) rep :
  Repetition_ok rep = true →
  kspace_body (k_pos, stored, trajectory) rep =
    let '(k, s) := pulse_adjust (usage (pulse rep)) k_pos stored in
    let traj := rep_trajectory k rep in
    Ok (default k (last traj), s, trajectory ++ [traj]).
Proof.
  intros Hok. unfold kspace_body.
  rewrite usage_dispatch, (cat_gradm_time_deltas _ Hok), torch_cumsum_inclusive.
  destruct (pulse_adjust _ _ _) as [k s]. fold (rep_trajectory k rep).
  destruct (last_row_nonempty (rep_trajectory k rep)) as (r & Hlast & ->).
  - intros Hnil. apply (f_equal length) in Hnil.
    rewrite length_rep_trajectory in Hnil. simpl in Hnil.
    apply Repetition_ok_inv in Hok. lia.
  - simpl. by rewrite Hlast.
Qed.

(** The loop appends the trajectories of the reference recurrence. *)
Lemma kspace_loop_reference reps k_pos stored (trajectory : list (list (Vec4 F))) :
  Forall (λ rep, Repetition_ok rep = true) reps →
  ∃ k s, for_each kspace_body reps (k_pos, stored, trajectory) =
           Ok (k, s, trajectory ++ reference_kspace k_pos stored reps).
Proof.
  intros Hok. revert k_pos stored trajectory.
  induction Hok as [|rep reps Hrep _ IH]; intros k_pos stored trajectory.
  - exists k_pos, stored. simpl. by rewrite app_nil_r.
  - cbn [for_each reference_kspace]. rewrite (kspace_body_ok _ _ _ _ Hrep).
    destruct (pulse_adjust _ _ _) as [k s]. cbn [exc_bind].
    destruct (IH (default k (last (rep_trajectory k rep))) s
                 (trajectory ++ [rep_trajectory k rep])) as (k' & s' & ->).
    exists k', s'. by rewrite <- app_assoc.
Qed.

Lemma get_full_kspace_nonempty self :
  self ≠ [] → Forall (λ rep, Repetition_ok rep = true) self →
  Sequence_get_full_kspace self = Ok (reference_kspace vzero vzero self).
Proof.
  intros Hne Hok. unfold Sequence_get_full_kspace.
  destruct self as [|rep reps]; [done|]. cbn [Sequence_device exc_bind].
  destruct (kspace_loop_reference (rep :: reps) vzero vzero [] Hok)
    as (k & s & ->).
  done.
Qed.

Lemma reference_kspace_lengths reps k_pos stored :
  Forall2 (λ traj rep, length traj = event_count rep)
    (reference_kspace k_pos stored reps) reps.
Proof.
  revert k_pos stored. induction reps as [|rep reps IH]; intros k_pos stored.
  - constructor.
  - cbn [reference_kspace]. destruct (pulse_adjust _ _ _) as [k s].
    constructor; [apply length_rep_trajectory | apply IH].
Qed.

End TrajectoryProofs.

Section TrajectoryTheorems.
Context {F : Type} {ops : FloatOps F}.

Implicit Types (rep : Repetition F) (reps self : list (Repetition F)).

(** C10: on a sequence without repetitions [get_full_kspace] and
    [get_kspace] raise IndexError (from [self[0]] in [Sequence.device])
    instead of returning an empty trajectory. *)
Theorem kspace_of_empty_sequence_raises :
  Sequence_get_full_kspace (@nil (Repetition F)) = Raise IndexError
  ∧ Sequence_get_kspace (@nil (Repetition F)) = Raise IndexError.
Proof. split; reflexivity. Qed.

(** C1 (amended): for every sequence with at least one repetition,
    [get_full_kspace] returns the trajectories of the reference recurrence
    started from [k_pos = stored = 0], one per repetition and with one row
    per event; and a single EXCIT repetition with [event_time = [1,1]] and
    [gradm = [[1,0,0],[1,0,0]]] yields [[1,0,0,1],[2,0,0,2]]. *)
Theorem get_full_kspace_recurrence self :
  self ≠ [] → forallb Repetition_ok self = true →
  Sequence_get_full_kspace self = Ok (reference_kspace vzero vzero self)
  ∧ length (reference_kspace vzero vzero self) = length self
  ∧ Forall2 (λ traj rep, length traj = event_count rep)
      (reference_kspace vzero vzero self) self
  ∧ ∀ r : Repetition Z,
      usage (pulse r) = EXCIT → data (event_time r) = [1; 1] →
      data (gradm r) = [1; 0; 0; 1; 0; 0] →
      Sequence_get_full_kspace [r] = Ok [[(1, 0, 0, 1); (2, 0, 0, 2)]].
Proof.
  intros Hne Hok. apply forallb_Forall_ok in Hok.
  split; [by apply get_full_kspace_nonempty|].
  split; [apply (Forall2_length _ _ _ (reference_kspace_lengths self vzero vzero))|].
  split; [apply reference_kspace_lengths|].
  intros r Hu Ht Hg.
  unfold Sequence_get_full_kspace. cbn [Sequence_device exc_bind for_each].
  unfold kspace_body. rewrite Hu, Ht, Hg. reflexivity.
Qed.

(** C4 (amended): in [rep0 (EXCIT), rep1 (STORE), rep2 (EXCIT)] the STORE
    pulse saves the position carried into [rep1], which is the last row of
    [rep0]'s trajectory; both [rep1]'s and [rep2]'s trajectories start
    from it. *)
Theorem store_then_excit_start (rep0 rep1 rep2 : Repetition F) :
  forallb Repetition_ok [rep0; rep1; rep2] = true →
  usage (pulse rep0) = EXCIT → usage (pulse rep1) = STORE →
  usage (pulse rep2) = EXCIT →
  ∃ t0 t1 t2 p0,
    Sequence_get_full_kspace [rep0; rep1; rep2] = Ok [t0; t1; t2]
    ∧ last t0 = Some p0
    ∧ t1 = rep_trajectory p0 rep1
    ∧ t2 = rep_trajectory p0 rep2.
Proof.
  intros Hok H0 H1 H2.
  assert (Hok0 : Repetition_ok rep0 = true).
  { simpl in Hok. rewrite !andb_true_iff in Hok. tauto. }
  rewrite get_full_kspace_nonempty by (done || by apply forallb_Forall_ok).
  cbn [reference_kspace]. rewrite H0, H1, H2. cbn [pulse_adjust].
  destruct (last_row_nonempty (rep_trajectory vzero rep0)) as (p0 & Hlast & _).
  { intros Hnil. apply (f_equal length) in Hnil.
    rewrite length_rep_trajectory in Hnil. simpl in Hnil.
    apply Repetition_ok_inv in Hok0. lia. }
  rewrite Hlast. cbn [default]. eauto 10.
Qed.

End TrajectoryTheorems.

(** ** Measured samples and contrast masks *)

Section MeasuredProofs.
Context {F : Type} {ops : FloatOps F}.

Implicit Types (rep : Repetition F) (reps self : list (Repetition F)).

(** Indexing with the mask [us > 0] keeps the rows whose tag is positive. *)
Lemma index_mask_positive {A : Type} (us : list Z) (rows : list A) :
  length rows = length us →
  index_mask rows ((λ u, bool_decide (u > 0)) <$> us) =
    Ok (snd <$> filter (λ ur : Z * A, 0 < fst ur) (zip us rows)).
Proof.
  intros Hlen. unfold index_mask.
  rewrite bool_decide_eq_true_2 by (by rewrite length_fmap).
  f_equal. f_equal. clear Hlen. revert rows.
  induction us as [|u us IH]; intros [|r rows]; try done.
  cbn [fmap list_fmap zip zip_with]. rewrite !filter_cons. cbn [fst].
  specialize (IH rows). cbn [fmap list_fmap zip zip_with] in IH.
  case_bool_decide; repeat case_decide; try lia; try done.
  by rewrite !fmap_cons, IH.
Qed.

Lemma length_measured_rows {A : Type} (us : list Z) (rows : list A) :
  length rows = length us →
  length (snd <$> filter (λ ur : Z * A, 0 < fst ur) (zip us rows)) =
    length (filter (λ u : Z, 0 < u) us).
Proof.
  revert rows. induction us as [|u us IH]; intros [|r rows] Hlen; try done.
  cbn [zip zip_with]. rewrite !filter_cons. cbn [fst].
  simpl in Hlen. specialize (IH rows).
  case_decide; cbn [fmap list_fmap length]; rewrite IH; auto with lia.
Qed.

(** The list comprehension of [get_kspace]. *)
Lemma get_kspace_parts (full : list (list (Vec4 F))) reps :
  Forall2 (λ traj rep, length traj = event_count rep) full reps →
  Forall (λ rep, Repetition_ok rep = true) reps →
  exc_map
    (λ sr : list (Vec4 F) * Repetition F,
       index_mask (fst sr)
         ((λ u, bool_decide (u > 0)) <$> data (adc_usage (snd sr))))
    (zip full reps) = Ok (zip_with measured full reps).
Proof.
  induction 1 as [|traj rep full reps Hlen _ IH]; intros Hok; [done|].
  apply Forall_cons in Hok as [Hrep Hreps].
  cbn [zip zip_with exc_map fst snd].
  apply Repetition_ok_inv in Hrep.
  rewrite index_mask_positive by (destruct Hrep as (_&_&_&_&_&_&_&_&->); done).
  cbn [exc_bind]. fold (zip full reps). rewrite (IH Hreps). done.
Qed.

Lemma length_concat_measured (full : list (list (Vec4 F))) reps :
  Forall2 (λ traj rep, length traj = event_count rep) full reps →
  Forall (λ rep, Repetition_ok rep = true) reps →
  length (concat (zip_with measured full reps)) = measured_count reps.
Proof.
  induction 1 as [|traj rep full reps Hlen _ IH]; intros Hok; [done|].
  apply Forall_cons in Hok as [Hrep Hreps].
  cbn [zip_with concat]. rewrite length_app, (IH Hreps).
  unfold measured_count. cbn [fmap list_fmap sum_list sum_list_with].
  unfold measured. apply Repetition_ok_inv in Hrep.
  rewrite length_measured_rows by (destruct Hrep as (_&_&_&_&_&_&_&_&->); done).
  done.
Qed.

(** C2 (amended): for every sequence with at least one repetition,
    [get_kspace] is the concatenation, in sequence order, of the
    repetitions' full trajectories restricted to the events with
    [adc_usage > 0], and its length is the number of such events. *)
Theorem get_kspace_measured self :
  self ≠ [] → forallb Repetition_ok self = true →
  ∃ full,
    Sequence_get_full_kspace self = Ok full
    ∧ Sequence_get_kspace self = Ok (concat (zip_with measured full self))
    ∧ length (concat (zip_with measured full self)) = measured_count self.
Proof.
  intros Hne Hok. apply forallb_Forall_ok in Hok.
  exists (reference_kspace vzero vzero self).
  pose proof (reference_kspace_lengths self vzero vzero) as Hlen.
  split; [by apply get_full_kspace_nonempty|].
  split; [|by apply length_concat_measured].
  unfold Sequence_get_kspace.
  rewrite get_full_kspace_nonempty by done. cbn [exc_bind].
  rewrite get_kspace_parts by done. cbn [exc_bind].
  destruct self as [|rep reps]; [done|].
  cbn [reference_kspace] in *. destruct (pulse_adjust _ _ _). done.
Qed.

(** Indexing a tensor with its own mask [t != 0] cannot fail. *)
Lemma index_mask_nonzero (us : list Z) :
  index_mask us ((λ u, bool_decide (u ≠ 0)) <$> us) =
    Ok (filter (λ u : Z, u ≠ 0) us).
Proof.
  unfold index_mask.
  rewrite bool_decide_eq_true_2 by (by rewrite length_fmap).
  f_equal. induction us as [|u us IH]; [done|].
  cbn [fmap list_fmap zip zip_with]. rewrite !filter_cons. cbn [fst].
  cbn [fmap list_fmap zip zip_with] in IH.
  case_bool_decide; repeat case_decide; try done.
  by rewrite !fmap_cons, IH.
Qed.

(** The mask of a sequence with at least one repetition: the flags of its
    repetitions, in order. *)
Lemma get_contrast_mask_flags (contrast : Z) self :
  self ≠ [] →
  Sequence_get_contrast_mask contrast self =
    Ok (concat (contrast_flags contrast <$> self)).
Proof.
  intros Hne. unfold Sequence_get_contrast_mask.
  assert (Hparts : exc_map
    (λ rep : Repetition F,
       let? kept := index_mask (data (adc_usage rep))
                      ((λ u, bool_decide (u ≠ 0)) <$> data (adc_usage rep)) in
       Ok ((λ u, bool_decide (u = contrast)) <$> kept)) self
    = Ok (contrast_flags contrast <$> self)).
  { clear Hne. induction self as [|rep reps IH]; [done|].
    cbn [exc_map]. rewrite index_mask_nonzero. cbn [exc_bind].
    rewrite IH. done. }
  rewrite Hparts. cbn [exc_bind]. by destruct self.
Qed.

End MeasuredProofs.

(** C3, at a repetition with a negative tag: the mask keeps the entries
    with [adc_usage != 0] and has two entries, [get_kspace] keeps those with
    [adc_usage > 0] and has one row, so the mask cannot index the rows. *)
Theorem contrast_mask_negative_usage_mismatch :
  let rep := example_rep EXCIT [1; 1] [0; 0; 0; 0; 0; 0] [-1; 1] in
  Repetition_ok rep = true
  ∧ Sequence_get_contrast_mask 1 [rep] = Ok [false; true]
  ∧ Sequence_get_kspace [rep] = Ok [(0, 0, 0, 2)].
Proof. repeat split. Qed.

(** ** Integers of fixed width *)

Section IntProofs.
Context {dt : IntDtype}.

Lemma int_bits_ge : 8 ≤ int_bits.
Proof. apply Z.leb_le. apply int_bits_ok. Qed.

Lemma int_half_pos : 0 < 2 ^ (int_bits - 1).
Proof. pose proof int_bits_ge. apply Z.pow_pos_nonneg; lia. Qed.

Lemma int_modulus_split : 2 ^ int_bits = 2 * 2 ^ (int_bits - 1).
Proof.
  pose proof int_bits_ge.
  replace int_bits with (Z.succ (int_bits - 1)) at 1 by lia.
  apply Z.pow_succ_r. lia.
Qed.

(** Every integer type holds the values from -128 to 127. *)
Lemma int_range_bytes : int_min ≤ -128 ∧ 127 ≤ int_max.
Proof.
  pose proof int_bits_ge.
  assert (2 ^ 7 ≤ 2 ^ (int_bits - 1)) by (apply Z.pow_le_mono_r; lia).
  unfold int_min, int_max. change (2 ^ 7) with 128 in *. lia.
Qed.

Lemma wrap_in_range (z : Z) : in_range (wrap z).
Proof.
  pose proof int_half_pos. pose proof int_modulus_split.
  unfold in_range, wrap, int_min, int_max.
  pose proof (Z.mod_pos_bound (z - - 2 ^ (int_bits - 1)) (2 ^ int_bits)).
  lia.
Qed.

Lemma wrap_id (z : Z) : in_range z → wrap z = z.
Proof.
  pose proof int_half_pos. pose proof int_modulus_split.
  unfold in_range, wrap, int_min, int_max. intros Hz.
  rewrite Z.mod_small; lia.
Qed.

Lemma wrap_wrap_add (z b : Z) : wrap (wrap z + b) = wrap (z + b).
Proof.
  unfold wrap. f_equal.
  replace ((z - int_min) mod 2 ^ int_bits + int_min + b - int_min)
    with ((z - int_min) mod 2 ^ int_bits + b) by lia.
  replace (z + b - int_min) with ((z - int_min) + b) by lia.
  apply Zplus_mod_idemp_l.
Qed.

Lemma int_add_in_range (x offset : Z) :
  in_range x → int_add x offset = wrap (x + offset).
Proof. intros Hx. unfold int_add. by rewrite bool_decide_eq_true_2. Qed.

Lemma int_add_range (x offset : Z) : in_range x → in_range (int_add x offset).
Proof. intros Hx. rewrite int_add_in_range by done. apply wrap_in_range. Qed.

Lemma int_add_0 (x : Z) : int_add x 0 = x.
Proof.
  unfold int_add. case_bool_decide; [|lia].
  rewrite Z.add_0_r. by apply wrap_id.
Qed.

(** Without overflow the sum is the sum of the integers. *)
Lemma int_add_fits (x offset : Z) :
  x > 0 → 0 ≤ offset → x + offset ≤ int_max → int_add x offset = x + offset.
Proof.
  intros Hx Hoff Hfit. unfold int_add. case_bool_decide as Hr; [|done].
  apply wrap_id. unfold in_range in *. lia.
Qed.

End IntProofs.

(** ** Shifting contrasts *)

Section ShiftProofs.
Context {F : Type} {ops : FloatOps F} {dt : IntDtype}.

Implicit Types (rep : Repetition F).

Lemma masked_add_0 (xs : list Z) : masked_add 0 xs = xs.
Proof.
  unfold masked_add. induction xs as [|x xs IH]; [done|].
  rewrite fmap_cons, IH. case_bool_decide; [|done]. by rewrite int_add_0.
Qed.

Lemma masked_add_lookup (offset : Z) (xs : list Z) (i : nat) :
  masked_add offset xs !! i =
    (λ x, if bool_decide (x > 0) then int_add x offset else x) <$> xs !! i.
Proof. unfold masked_add. apply list_lookup_fmap. Qed.

Lemma shift_contrasts_usage (offset : Z) rep :
  data (adc_usage (Repetition_shift_contrasts offset rep)) =
    masked_add offset (data (adc_usage rep)).
Proof. done. Qed.

(** Entries that are not measured stay as they are. *)
Lemma shift_contrasts_nonpositive (offset : Z) rep (i : nat) (x : Z) :
  data (adc_usage rep) !! i = Some x → x ≤ 0 →
  data (adc_usage (Repetition_shift_contrasts offset rep)) !! i = Some x.
Proof.
  intros Hx Hle. rewrite shift_contrasts_usage, masked_add_lookup, Hx. simpl.
  by rewrite bool_decide_eq_false_2 by lia.
Qed.

(** Shifting keeps a repetition as [__init__] returned it. *)
Lemma shift_contrasts_ok (offset : Z) rep :
  Repetition_ok (Repetition_shift_contrasts offset rep) = Repetition_ok rep.
Proof.
  unfold Repetition_ok, tensor_ok, numel, Repetition_shift_contrasts, masked_add.
  simpl. by rewrite length_fmap.
Qed.

(** C7 (amended): [shift_contrasts(0)] leaves the repetition unchanged,
    and for offsets [a] and [b] that the integer type of the tensor holds,
    together with [a + b], [shift_contrasts(a)] followed by
    [shift_contrasts(b)] agrees with [shift_contrasts(a + b)] on every
    entry [x] that was positive before and is still positive after the
    shift by [a], the sums being taken in the integer type of the tensor,
    with its wrap-around; when [a] is not negative, these are the positive
    entries for which [x + a] does not exceed the largest value of the
    type. *)
Theorem shift_contrasts_compose rep (a b : Z) :
  Repetition_shift_contrasts 0 rep = rep
  ∧ (in_range a → in_range b → in_range (a + b) →
     ∀ (i : nat) (x : Z),
       data (adc_usage rep) !! i = Some x → in_range x →
       x > 0 → int_add x a > 0 →
       data (adc_usage (Repetition_shift_contrasts b
                          (Repetition_shift_contrasts a rep))) !! i =
       data (adc_usage (Repetition_shift_contrasts (a + b) rep)) !! i)
  ∧ (in_range a → in_range b → in_range (a + b) → 0 ≤ a →
     ∀ (i : nat) (x : Z),
       data (adc_usage rep) !! i = Some x → in_range x →
       x > 0 → x + a ≤ int_max →
       data (adc_usage (Repetition_shift_contrasts b
                          (Repetition_shift_contrasts a rep))) !! i =
       data (adc_usage (Repetition_shift_contrasts (a + b) rep)) !! i).
Proof.
  assert (Hentry : ∀ (i : nat) (x : Z),
    data (adc_usage rep) !! i = Some x → in_range x →
    x > 0 → int_add x a > 0 →
    data (adc_usage (Repetition_shift_contrasts b
                       (Repetition_shift_contrasts a rep))) !! i =
    data (adc_usage (Repetition_shift_contrasts (a + b) rep)) !! i).
  { intros i x Hx Hr Hpos Hstill.
    rewrite !shift_contrasts_usage, !masked_add_lookup, Hx. simpl.
    rewrite (bool_decide_eq_true_2 (x > 0)) by done.
    rewrite (bool_decide_eq_true_2 (int_add x a > 0)) by done.
    f_equal. rewrite (int_add_in_range (int_add x a)) by (by apply int_add_range).
    rewrite !(int_add_in_range x) by done.
    rewrite wrap_wrap_add. f_equal. lia. }
  split; [|split].
  - destruct rep as [p n et gm ap [d s us]].
    unfold Repetition_shift_contrasts. simpl. by rewrite masked_add_0.
  - intros _ _ _. exact Hentry.
  - intros _ _ _ Ha i x Hx Hr Hpos Hfit. apply (Hentry i x); try done.
    rewrite int_add_fits by done. lia.
Qed.

End ShiftProofs.

(** C7 as stated fails for a negative first offset: the entry [1] shifted
    by [-1] becomes [0], which the shift by [1] no longer touches, while a
    single shift by [-1 + 1] leaves it at [1].  It also fails when the first
    shift overflows: in an [int32] tensor the entry [2147483647] shifted by
    [1] wraps around to [-2147483648], which the shift by [-1] no longer
    touches. *)
Lemma shift_contrasts_negative_offset_counterexample :
  let rep := example_rep EXCIT [1] [0; 0; 0] [1] in
  data (adc_usage rep) !! 0%nat = Some 1
  ∧ data (adc_usage (Repetition_shift_contrasts 1
                       (Repetition_shift_contrasts (-1) rep))) !! 0%nat = Some 0
  ∧ data (adc_usage (Repetition_shift_contrasts (-1 + 1) rep)) !! 0%nat = Some 1
  ∧ let big := example_rep EXCIT [1] [0; 0; 0] [2147483647] in
    data (adc_usage (Repetition_shift_contrasts (-1)
                       (Repetition_shift_contrasts 1 big))) !! 0%nat
      = Some (-2147483648)
    ∧ data (adc_usage (Repetition_shift_contrasts (1 + -1) big)) !! 0%nat
      = Some 2147483647.
Proof. repeat split. Qed.

Lemma shift_contrasts_compose_witness :
  let rep := example_rep EXCIT [1; 1] [0; 0; 0; 0; 0; 0] [2; 0] in
  data (adc_usage (Repetition_shift_contrasts 3
                     (Repetition_shift_contrasts (-1) rep))) !! 0%nat =
  data (adc_usage (Repetition_shift_contrasts (-1 + 3) rep)) !! 0%nat.
Proof.
  intros rep.
  destruct (shift_contrasts_compose (F:=Z) rep (-1) 3) as (_ & Hentry & _).
  apply (Hentry ltac:(by vm_compute) ltac:(by vm_compute) ltac:(by vm_compute)
           0%nat 2); [reflexivity | | lia |].
  - by vm_compute.
  - by vm_compute.
Defined.

(** C1 as stated fails on the sequence without repetitions: no list of
    trajectories is returned. *)
Lemma get_full_kspace_empty_counterexample :
  Sequence_get_full_kspace (@nil (Repetition Z)) ≠
    Ok (reference_kspace vzero vzero []).
Proof. discriminate. Qed.

Lemma get_full_kspace_recurrence_witness :
  let self := [example_rep EXCIT [1; 1] [1; 0; 0; 1; 0; 0] [0; 1];
               example_rep REFOC [2] [0; 1; 0] [2]] in
  Sequence_get_full_kspace self = Ok (reference_kspace vzero vzero self).
Proof.
  intros self.
  apply (get_full_kspace_recurrence (F:=Z) self); [discriminate | reflexivity].
Defined.

(** C2 as stated fails on the sequence without repetitions: [get_kspace]
    raises instead of returning the empty concatenation. *)
Lemma get_kspace_empty_counterexample :
  Sequence_get_kspace (@nil (Repetition Z)) ≠ Ok (concat (zip_with measured [] [])).
Proof. discriminate. Qed.

Lemma get_kspace_measured_witness :
  let self := [example_rep EXCIT [1; 1] [1; 0; 0; 1; 0; 0] [0; 1];
               example_rep REFOC [2] [0; 1; 0] [2]] in
  ∃ full,
    Sequence_get_full_kspace self = Ok full
    ∧ Sequence_get_kspace self = Ok (concat (zip_with measured full self))
    ∧ length (concat (zip_with measured full self)) = measured_count self.
Proof.
  intros self.
  apply (get_kspace_measured (F:=Z) self); [discriminate | reflexivity].
Defined.

(** C4 as stated fails: [rep2] does not start from the last position of
    [rep1], here [(1, 2, 0, 2)], but from the one of [rep0], [(1, 0, 0, 1)]. *)
Lemma store_then_excit_counterexample :
  let rep0 := example_rep EXCIT [1] [1; 0; 0] [1] in
  let rep1 := example_rep STORE [1] [0; 2; 0] [1] in
  let rep2 := example_rep EXCIT [1] [0; 0; 0] [1] in
  ∃ t0 t1 t2 p0 p1,
    Sequence_get_full_kspace [rep0; rep1; rep2] = Ok [t0; t1; t2]
    ∧ last t0 = Some p0 ∧ last t1 = Some p1
    ∧ t2 = rep_trajectory p0 rep2
    ∧ t2 ≠ rep_trajectory p1 rep2.
Proof.
  exists [(1, 0, 0, 1)], [(1, 2, 0, 2)], [(1, 0, 0, 2)], (1, 0, 0, 1), (1, 2, 0, 2).
  repeat split. discriminate.
Qed.

Lemma store_then_excit_start_witness :
  let rep0 := example_rep EXCIT [1] [1; 0; 0] [1] in
  let rep1 := example_rep STORE [1] [0; 2; 0] [1] in
  let rep2 := example_rep EXCIT [1] [0; 0; 0] [1] in
  ∃ t0 t1 t2 p0,
    Sequence_get_full_kspace [rep0; rep1; rep2] = Ok [t0; t1; t2]
    ∧ last t0 = Some p0
    ∧ t1 = rep_trajectory p0 rep1
    ∧ t2 = rep_trajectory p0 rep2.
Proof.
  intros rep0 rep1 rep2.
  apply (store_then_excit_start (F:=Z) rep0 rep1 rep2); reflexivity.
Defined.

(** ** Cloning and shifting in the store *)

Section StoreProofs.
Context {F : Type} {ops : FloatOps F} {dt : IntDtype}.

Implicit Types (h : Store F) (r t : loc) (rep : Repetition F) (o : Object F).
Implicit Types (refs temp : list loc) (reps : list (Repetition F)).

Lemma lookup_store_Some h r rep :
  h !! r = Some rep ↔
  ∃ o u, objects h !! r = Some o ∧ tensors h !! o_adc_usage o = Some u
         ∧ rep = object_value o u.
Proof.
  change (h !! r) with (load h r). unfold load.
  destruct (objects h !! r) as [o|]; [|split; [done | by intros (? & ? & [=] & _)]].
  destruct (tensors h !! o_adc_usage o) as [u|] eqn:Hu.
  - split.
    + intros [= <-]. by exists o, u.
    + intros (o' & u' & [= <-] & Hu' & ->). congruence.
  - split; [done|]. intros (o' & u' & [= <-] & Hu' & _). congruence.
Qed.

Lemma lookup_store_None h r : objects h !! r = None → h !! r = None.
Proof. intros Hr. change (h !! r) with (load h r). unfold load. by rewrite Hr. Qed.

Lemma store_le_refl h : store_le h h.
Proof. by split. Qed.

Lemma store_le_trans h1 h2 h3 : store_le h1 h2 → store_le h2 h3 → store_le h1 h3.
Proof. intros [? ?] [? ?]. split; by etrans. Qed.

Lemma lookup_store_weaken h h' r rep :
  store_le h h' → h !! r = Some rep → h' !! r = Some rep.
Proof.
  intros [Ho Ht]. rewrite !lookup_store_Some. intros (o & u & Hr & Hu & ->).
  exists o, u. split; [|split; [|done]].
  - by apply (lookup_weaken (objects h)).
  - by apply (lookup_weaken (tensors h)).
Qed.

Lemma lookup_store_weaken_None h h' r :
  store_le h h' → h' !! r = None → h !! r = None.
Proof.
  intros Hle Hr. destruct (h !! r) as [rep|] eqn:Hrep; [|done].
  apply (lookup_store_weaken h h' r rep Hle) in Hrep. congruence.
Qed.

Lemma object_value_of rep t : object_value (object_of rep t) (adc_usage rep) = rep.
Proof. by destruct rep. Qed.

Lemma object_value_shift (offset : Z) o (u : Tensor Z) :
  object_value o (tensor_shift offset u) =
    Repetition_shift_contrasts offset (object_value o u).
Proof. done. Qed.

(** A new object is the repetition it was made from, and leaves what
    exists as it is. *)
Lemma lookup_store_insert h r rep : (<[r := rep]> h) !! r = Some rep.
Proof.
  apply lookup_store_Some.
  exists (object_of rep (fresh (dom (tensors h)))), (adc_usage rep).
  unfold insert, Store_insert. simpl.
  split; [apply lookup_insert_eq|]. split; [apply lookup_insert_eq|].
  by rewrite object_value_of.
Qed.

Lemma store_le_insert h r rep :
  objects h !! r = None → store_le h (<[r := rep]> h).
Proof.
  intros Hr. unfold insert, Store_insert. split; simpl.
  - by apply insert_subseteq.
  - apply insert_subseteq. apply not_elem_of_dom. apply is_fresh.
Qed.

Lemma chain_args_ok_spec h (sequences : list (list loc)) :
  chain_args_ok h sequences = true ↔
  Forall (Forall (object_ok h)) sequences.
Proof.
  unfold chain_args_ok. rewrite forallb_forall, Forall_forall.
  setoid_rewrite <- list_elem_of_In.
  apply forall_proper; intros s. apply forall_proper; intros _.
  rewrite forallb_forall, Forall_forall.
  setoid_rewrite <- list_elem_of_In.
  apply forall_proper; intros r. apply forall_proper; intros _.
  unfold object_ok. destruct (h !! r) as [rep|].
  - rewrite andb_true_iff. split; [eauto|]. by intros (? & [= <-] & ?).
  - split; [done|]. by intros (? & [=] & _).
Qed.

Lemma object_ok_weaken h h' r : store_le h h' → object_ok h r → object_ok h' r.
Proof.
  intros Hsub (rep & Hr & Hok). exists rep. split; [|done].
  by apply (lookup_store_weaken h h').
Qed.

Lemma values_cons h r refs rep :
  h !! r = Some rep → values h (r :: refs) = rep :: values h refs.
Proof. intros Hr. unfold values. cbn [omap list_omap]. by rewrite Hr. Qed.

Lemma values_app h refs1 refs2 :
  values h (refs1 ++ refs2) = values h refs1 ++ values h refs2.
Proof. apply omap_app. Qed.

(** Two stores that agree on the references of a list give it the same
    values. *)
Lemma values_agree h h' refs :
  (∀ r, r ∈ refs → h' !! r = h !! r) → values h' refs = values h refs.
Proof.
  induction refs as [|r refs IH]; intros Hagree; [done|].
  unfold values in *. cbn [omap list_omap].
  rewrite (Hagree r) by left. rewrite IH; [done|].
  intros r' Hr'. apply Hagree. by right.
Qed.

Lemma values_weaken h h' refs :
  store_le h h' → Forall (object_ok h) refs → values h' refs = values h refs.
Proof.
  intros Hsub Hok. apply values_agree. intros r Hr.
  rewrite Forall_forall in Hok. destruct (Hok r Hr) as (rep & Hrep & _).
  rewrite Hrep. by apply (lookup_store_weaken h h').
Qed.

Lemma length_values h refs :
  Forall (object_ok h) refs → length (values h refs) = length refs.
Proof.
  induction 1 as [|r refs (rep & Hr & _) _ IH]; [done|].
  rewrite (values_cons _ _ _ _ Hr). simpl. by rewrite IH.
Qed.

Lemma values_ok h refs :
  Forall (object_ok h) refs →
  Forall (λ rep, Repetition_ok rep = true) (values h refs).
Proof.
  induction 1 as [|r refs (rep & Hr & Hok & _) _ IH]; [constructor|].
  rewrite (values_cons _ _ _ _ Hr). by constructor.
Qed.

(** [get_objects] reads the values and leaves the store as it is. *)
Lemma get_objects_values h refs :
  Forall (object_ok h) refs → get_objects refs h = Ok (values h refs, h).
Proof.
  induction 1 as [|r refs (rep & Hr & _) _ IH]; [done|].
  cbn [get_objects]. unfold py_bind, get_object at 1. rewrite Hr, IH.
  by rewrite (values_cons _ _ _ _ Hr).
Qed.

(** [Sequence.clone] allocates one new object per repetition, equal to the
    original and with an [adc_usage] tensor that is new and its own, and
    changes nothing that exists. *)
Lemma Sequence_clone_spec refs h :
  Forall (object_ok h) refs →
  ∃ temp h',
    Sequence_clone refs h = Ok (temp, h')
    ∧ store_le h h'
    ∧ (∀ r, r ∈ temp → h !! r = None)
    ∧ Forall (object_ok h') temp
    ∧ values h' temp = values h refs
    ∧ NoDup (tensor_of h' <$> temp)
    ∧ (∀ r t, r ∈ temp → tensor_of h' r = Some t → tensors h !! t = None).
Proof.
  intros Hok. revert h Hok.
  induction refs as [|r refs IH]; intros h Hok.
  - exists [], h. split; [done|]. split; [apply store_le_refl|].
    split; [by intros r [] %elem_of_nil|]. split; [constructor|].
    split; [done|]. split; [constructor|]. by intros r t [] %elem_of_nil.
  - apply Forall_cons in Hok as [(rep & Hr & Hrep & Hp) Hrefs].
    set (r' := fresh (dom (objects h))). set (h1 := <[r' := rep]> h).
    set (t' := fresh (dom (tensors h))).
    assert (Hfresh : objects h !! r' = None).
    { apply not_elem_of_dom. apply is_fresh. }
    assert (Hfresh' : tensors h !! t' = None).
    { apply not_elem_of_dom. apply is_fresh. }
    assert (Hsub1 : store_le h h1) by (by apply store_le_insert).
    assert (Ho1 : objects h1 !! r' = Some (object_of rep t')).
    { unfold h1, insert, Store_insert. simpl. apply lookup_insert_eq. }
    assert (Ht1 : is_Some (tensors h1 !! t')).
    { unfold h1, insert, Store_insert. simpl. fold t'.
      rewrite lookup_insert_eq. by eexists. }
    destruct (IH h1)
      as (temp & h' & Hclone & Hsub & Hnew & Hok' & Hval & Hnd & Hpriv).
    { eapply Forall_impl; [exact Hrefs|]. intros ?. by apply object_ok_weaken. }
    assert (Hr' : h' !! r' = Some rep).
    { apply (lookup_store_weaken h1 h'); [done|]. apply lookup_store_insert. }
    assert (Ho' : tensor_of h' r' = Some t').
    { unfold tensor_of. destruct Hsub as [Hsubo _].
      by rewrite (lookup_weaken _ _ _ _ Ho1 Hsubo). }
    exists (r' :: temp), h'.
    split; [|split; [|split; [|split; [|split; [|split]]]]].
    + cbn [Sequence_clone]. unfold py_bind, get_object at 1. rewrite Hr.
      rewrite (Repetition_clone_ok _ Hrep Hp). unfold py_lift, new_object.
      fold r'. fold h1. rewrite Hclone. done.
    + by apply (store_le_trans h h1 h').
    + intros l [->|Hl] %elem_of_cons; [by apply lookup_store_None|].
      apply Hnew in Hl. by apply (lookup_store_weaken_None h h1).
    + constructor; [|done]. by exists rep.
    + rewrite (values_cons _ _ _ _ Hr'), (values_cons _ _ _ _ Hr), Hval.
      f_equal. by apply values_weaken.
    + rewrite fmap_cons. constructor; [|done].
      rewrite Ho'. intros (l & Hl & Hin) %list_elem_of_fmap.
      symmetry in Hl. apply (Hpriv l t' Hin) in Hl.
      destruct Ht1 as [u Hu]. congruence.
    + intros l t [->|Hl] %elem_of_cons Ht.
      * rewrite Ho' in Ht. by injection Ht as <-.
      * apply (Hpriv l t Hl) in Ht. destruct Hsub1 as [_ Hsubt].
        by apply (lookup_weaken_None (tensors h) (tensors h1)).
Qed.

(** Counting the entries of a list by what a function gives them. *)
Lemma filter_none {A B : Type} `{EqDecision B} (f : A → option B) (b : B)
    (l : list A) :
  (∀ x, x ∈ l → f x ≠ Some b) → filter (λ x, f x = Some b) l = [].
Proof.
  induction l as [|a l IH]; intros Hno; [done|].
  rewrite filter_cons. destruct (decide (f a = Some b)) as [Ha|_].
  - by destruct (Hno a ltac:(left)).
  - apply IH. intros x Hx. apply Hno. by right.
Qed.

Lemma filter_once {A B : Type} `{EqDecision B} (f : A → option B) (b : B)
    (l : list A) (x : A) :
  NoDup (f <$> l) → x ∈ l → f x = Some b →
  length (filter (λ y, f y = Some b) l) = 1%nat.
Proof.
  induction l as [|a l IH]; intros Hnd Hx Hfx; [by apply elem_of_nil in Hx|].
  rewrite fmap_cons in Hnd. apply NoDup_cons in Hnd as [Ha Hnd].
  rewrite filter_cons. apply elem_of_cons in Hx as [->|Hx].
  - rewrite decide_True by done. rewrite filter_none; [done|].
    intros y Hy Hfy. apply Ha. apply list_elem_of_fmap. exists y.
    split; [congruence | done].
  - rewrite decide_False; [by apply IH|].
    intros Hfa. apply Ha. apply list_elem_of_fmap. exists x.
    split; [congruence | done].
Qed.

Lemma tensor_uses_cons h t r refs :
  tensor_uses h t (r :: refs) =
    ((if decide (tensor_of h r = Some t) then 1 else 0) + tensor_uses h t refs)%nat.
Proof.
  unfold tensor_uses. rewrite filter_cons.
  by destruct (decide (tensor_of h r = Some t)).
Qed.

(** [Sequence.shift_contrasts] leaves the objects as they are and shifts
    each tensor once for every entry of the sequence that refers to it. *)
Lemma Sequence_shift_contrasts_spec (offset : Z) refs h :
  Forall (λ r, is_Some (h !! r)) refs →
  ∃ h',
    Sequence_shift_contrasts offset refs h = Ok ((), h')
    ∧ objects h' = objects h
    ∧ ∀ t, tensors h' !! t =
           Nat.iter (tensor_uses h t refs) (tensor_shift offset) <$> tensors h !! t.
Proof.
  revert h. induction refs as [|r refs IH]; intros h Hok.
  - exists h. split; [done|]. split; [done|]. intros t. simpl.
    by destruct (tensors h !! t).
  - apply Forall_cons in Hok as [[rep Hrep] Hrefs].
    apply lookup_store_Some in Hrep as (o & u & Ho & Hu & _).
    set (h1 := mkStore (objects h)
                 (<[o_adc_usage o := tensor_shift offset u]> (tensors h))).
    assert (Huses : ∀ t l, tensor_uses h1 t l = tensor_uses h t l) by done.
    destruct (IH h1) as (h' & Hshift & Hobj & Hten).
    { eapply Forall_impl; [exact Hrefs|]. intros l [rep' Hl].
      apply lookup_store_Some in Hl as (o' & u' & Ho' & Hu' & _).
      destruct (decide (o_adc_usage o' = o_adc_usage o)) as [Heq|Hne].
      - exists (object_value o' (tensor_shift offset u)).
        apply lookup_store_Some. exists o', (tensor_shift offset u).
        split; [done|]. split; [|done].
        unfold h1. simpl. rewrite Heq. apply lookup_insert_eq.
      - exists (object_value o' u'). apply lookup_store_Some. exists o', u'.
        split; [done|]. split; [|done].
        unfold h1. simpl. by rewrite lookup_insert_ne. }
    exists h'. split; [|split; [done|]].
    + cbn [Sequence_shift_contrasts].
      unfold py_bind, shift_contrasts_in_place at 1. rewrite Ho, Hu.
      fold h1. by rewrite Hshift.
    + intros t. rewrite Hten, Huses, tensor_uses_cons.
      unfold tensor_of. rewrite Ho. simpl.
      destruct (decide (Some (o_adc_usage o) = Some t)) as [[= <-]|Hne].
      * unfold h1. simpl. rewrite lookup_insert_eq, Hu. simpl.
        f_equal. by rewrite <- Nat.iter_succ_r.
      * unfold h1. simpl. rewrite lookup_insert_ne; [done|]. congruence.
Qed.

(** On references with tensors of their own, [Sequence.shift_contrasts]
    shifts each of their objects once and changes nothing of a store [h0]
    that holds none of these tensors. *)
Lemma Sequence_shift_contrasts_private (offset : Z) temp h0 h :
  store_le h0 h →
  Forall (λ r, is_Some (h !! r)) temp →
  NoDup (tensor_of h <$> temp) →
  (∀ r t, r ∈ temp → tensor_of h r = Some t → tensors h0 !! t = None) →
  ∃ h',
    Sequence_shift_contrasts offset temp h = Ok ((), h')
    ∧ store_le h0 h'
    ∧ objects h' = objects h
    ∧ (∀ r, r ∈ temp → h' !! r = Repetition_shift_contrasts offset <$> h !! r).
Proof.
  intros [Hsubo Hsubt] Hok Hnd Hpriv.
  destruct (Sequence_shift_contrasts_spec offset temp h Hok)
    as (h' & Hshift & Hobj & Hten).
  exists h'. split; [done|]. split; [|split; [done|]].
  - split; [by rewrite Hobj|].
    apply map_subseteq_spec. intros t u Hu.
    rewrite Hten. unfold tensor_uses. rewrite filter_none.
    + simpl. by rewrite (lookup_weaken _ _ _ _ Hu Hsubt).
    + intros r Hr Ht. apply (Hpriv r t Hr) in Ht. congruence.
  - intros r Hr. rewrite Forall_forall in Hok.
    destruct (Hok r Hr) as [rep Hrep]. rewrite Hrep. simpl.
    apply lookup_store_Some in Hrep as (o & u & Ho & Hu & ->).
    apply lookup_store_Some. exists o, (tensor_shift offset u).
    split; [by rewrite Hobj|]. split; [|done].
    rewrite Hten, Hu. simpl. f_equal.
    assert (Hone : tensor_uses h (o_adc_usage o) temp = 1%nat).
    { apply (filter_once _ _ _ r); [done | done |].
      unfold tensor_of. by rewrite Ho. }
    by rewrite Hone.
Qed.

Lemma values_shifted (offset : Z) h h' refs :
  (∀ r, r ∈ refs → h' !! r = Repetition_shift_contrasts offset <$> h !! r) →
  values h' refs = Repetition_shift_contrasts offset <$> values h refs.
Proof.
  induction refs as [|r refs IH]; intros Hsh; [done|].
  unfold values in *. cbn [omap list_omap].
  rewrite (Hsh r) by left.
  rewrite IH by (intros r' Hr'; apply Hsh; by right).
  by destruct (h !! r).
Qed.

(** [clone] followed by [shift_contrasts] on the clone: the new objects
    hold the shifted repetitions and nothing that exists is changed. *)
Lemma clone_then_shift (offset : Z) refs h :
  Forall (object_ok h) refs →
  ∃ temp h1 h2,
    Sequence_clone refs h = Ok (temp, h1)
    ∧ Sequence_shift_contrasts offset temp h1 = Ok ((), h2)
    ∧ store_le h h2
    ∧ (∀ r, r ∈ temp → h !! r = None)
    ∧ Forall (object_ok h2) temp
    ∧ values h2 temp = Repetition_shift_contrasts offset <$> values h refs.
Proof.
  intros Hok.
  destruct (Sequence_clone_spec refs h Hok)
    as (temp & h1 & Hclone & Hsub1 & Hnew & Hok1 & Hval1 & Hnd & Hpriv).
  assert (Hsome : Forall (λ r, is_Some (h1 !! r)) temp).
  { eapply Forall_impl; [exact Hok1|]. intros r (rep & Hr & _). by exists rep. }
  destruct (Sequence_shift_contrasts_private offset temp h h1 Hsub1 Hsome Hnd Hpriv)
    as (h2 & Hshift & Hsub2 & _ & Hin).
  exists temp, h1, h2. split; [done|]. split; [done|]. split; [done|].
  split; [done|]. split.
  - rewrite Forall_forall in Hok1 |- *. intros l Hl.
    destruct (Hok1 l Hl) as (rep & Hrep & Hrok & Hp).
    exists (Repetition_shift_contrasts offset rep).
    rewrite (Hin l Hl), Hrep, shift_contrasts_ok. done.
  - by rewrite (values_shifted offset h1 h2 temp Hin), Hval1.
Qed.

End StoreProofs.

(** ** Tags, their maximum, and the offsets of [chain] *)

Section TagProofs.
Context {F : Type} {ops : FloatOps F} {dt : IntDtype}.

Implicit Types (rep : Repetition F) (reps : list (Repetition F)).

Lemma elem_of_tags (x : Z) reps :
  x ∈ tags reps ↔ ∃ rep, x ∈ data (adc_usage rep) ∧ rep ∈ reps.
Proof. unfold tags. apply list_elem_of_bind. Qed.

Lemma elem_of_sorted (x : Z) (xs : list Z) : x ∈ sorted xs ↔ x ∈ xs.
Proof. unfold sorted. by rewrite merge_sort_Permutation. Qed.

(** [get_contrasts] lists the tags of the sequence. *)
Lemma elem_of_get_contrasts (x : Z) reps :
  x ∈ Sequence_get_contrasts reps ↔ x ∈ tags reps.
Proof.
  unfold Sequence_get_contrasts.
  rewrite elem_of_sorted, elem_of_remove_dups, list_elem_of_bind, elem_of_tags.
  apply exist_proper; intros rep.
  unfold Repetition_get_contrasts, torch_unique.
  by rewrite elem_of_sorted, elem_of_remove_dups.
Qed.

Lemma get_contrasts_sorted reps :
  StronglySorted Z.le (Sequence_get_contrasts reps)
  ∧ NoDup (Sequence_get_contrasts reps).
Proof.
  unfold Sequence_get_contrasts, sorted. split.
  - apply StronglySorted_merge_sort; [apply _|].
    intros x y. destruct (Z.le_ge_cases x y); [left | right]; lia.
  - rewrite merge_sort_Permutation. apply NoDup_remove_dups.
Qed.

(** [get_contrasts] is the increasing duplicate-free list of the tags. *)
Lemma get_contrasts_unique reps (l : list Z) :
  StronglySorted Z.le l → NoDup l → (∀ x, x ∈ tags reps ↔ x ∈ l) →
  Sequence_get_contrasts reps = l.
Proof.
  intros Hsorted Hnd Hel.
  destruct (get_contrasts_sorted reps) as [Hs Hn].
  apply (StronglySorted_unique Z.le _ _ Hs Hsorted).
  apply NoDup_Permutation; [done | done |].
  intros x. by rewrite elem_of_get_contrasts.
Qed.

Lemma foldl_max_spec (x : Z) (xs : list Z) :
  foldl Z.max x xs ∈ x :: xs ∧ ∀ y, y ∈ x :: xs → y ≤ foldl Z.max x xs.
Proof.
  revert x. induction xs as [|z xs IH]; intros x.
  - simpl. split; [left|]. by intros y ->%list_elem_of_singleton.
  - cbn [foldl]. destruct (IH (Z.max x z)) as [Hin Hle]. split.
    + apply elem_of_cons in Hin as [Heq|Hin].
      * rewrite Heq. destruct (Z.max_spec x z) as [[_ ->]|[_ ->]];
          [right; left | left].
      * right. by right.
    + intros y Hy. apply elem_of_cons in Hy as [->|Hy].
      * trans (Z.max x z); [lia|]. apply Hle. left.
      * apply elem_of_cons in Hy as [->|Hy].
        -- trans (Z.max x z); [lia|]. apply Hle. left.
        -- apply Hle. by right.
Qed.

Lemma max_of_spec (xs : list Z) :
  xs ≠ [] → max_of xs ∈ xs ∧ ∀ y, y ∈ xs → y ≤ max_of xs.
Proof.
  destruct xs as [|x xs]; [done|]. intros _. unfold max_of.
  induction xs as [|z xs [Hin Hle]].
  - simpl. split; [left|]. by intros y ->%list_elem_of_singleton.
  - cbn [foldr]. split.
    + destruct (Z.max_spec z (foldr Z.max x xs)) as [[_ ->]|[_ ->]].
      * apply elem_of_cons in Hin as [->|Hin]; [left | right; by right].
      * right. left.
    + intros y Hy. apply elem_of_cons in Hy as [->|Hy].
      * trans (foldr Z.max x xs); [apply Hle; left | lia].
      * apply elem_of_cons in Hy as [->|Hy]; [lia|].
        trans (foldr Z.max x xs); [apply Hle; by right | lia].
Qed.

(** [max(get_contrasts())] is the largest tag of a sequence that has one. *)
Lemma py_max_get_contrasts reps :
  tags reps ≠ [] →
  py_max (Sequence_get_contrasts reps) = Ok (max_of (tags reps)).
Proof.
  intros Hne. destruct (max_of_spec _ Hne) as [Hin Hle].
  destruct (Sequence_get_contrasts reps) as [|c cs] eqn:Hcs.
  - apply elem_of_get_contrasts in Hin. rewrite Hcs in Hin.
    by apply elem_of_nil in Hin.
  - cbn [py_max]. f_equal. destruct (foldl_max_spec c cs) as [Hin' Hle'].
    rewrite <- Hcs in Hin', Hle'. apply Z.le_antisymm.
    + apply Hle. by apply elem_of_get_contrasts.
    + apply Hle'. by apply elem_of_get_contrasts.
Qed.

(** A sequence without repetitions has no contrasts, and [max] raises. *)
Lemma py_max_no_repetitions :
  py_max (Sequence_get_contrasts (@nil (Repetition F))) = Raise ValueError.
Proof. reflexivity. Qed.

Lemma tags_nonempty reps :
  reps ≠ [] → Forall (λ rep, Repetition_ok rep = true) reps → tags reps ≠ [].
Proof.
  intros Hne Hok. destruct Hok as [|rep reps Hrep _]; [done|].
  apply Repetition_ok_inv in Hrep.
  destruct Hrep as (HN & _ & _ & _ & _ & _ & _ & _ & Hlen).
  unfold tags. cbn [mbind list_bind].
  destruct (data (adc_usage rep)); [simpl in Hlen; lia | done].
Qed.

Lemma tags_shifted (offset : Z) reps :
  tags (Repetition_shift_contrasts offset <$> reps) =
    masked_add offset (tags reps).
Proof.
  unfold tags, masked_add. induction reps as [|rep reps IH]; [done|].
  rewrite fmap_cons. cbn [mbind list_bind]. rewrite fmap_app. by f_equal.
Qed.

Lemma elem_of_masked_add (offset c : Z) (xs : list Z) :
  c ∈ masked_add offset xs ↔
  ∃ x, x ∈ xs ∧ c = if bool_decide (x > 0) then int_add x offset else x.
Proof.
  unfold masked_add. rewrite list_elem_of_fmap.
  split; intros (x & H1 & H2); exists x; done.
Qed.

Lemma elem_of_positive_tags (c : Z) reps :
  c ∈ positive_tags reps ↔ 0 < c ∧ c ∈ tags reps.
Proof. unfold positive_tags. by rewrite list_elem_of_filter. Qed.

Lemma shift_fits_spec (offset : Z) reps :
  shift_fits offset reps = true ↔
  ∀ x, x ∈ tags reps → x > 0 → x + offset ≤ int_max.
Proof.
  unfold shift_fits. rewrite forallb_forall.
  setoid_rewrite <- list_elem_of_In. split.
  - intros Hall x (rep & Hx & Hrep) %elem_of_tags Hpos.
    specialize (Hall rep Hrep). rewrite forallb_forall in Hall.
    apply list_elem_of_In in Hx. apply Hall in Hx.
    apply bool_decide_eq_true_1 in Hx. by apply Hx.
  - intros Hall rep Hrep. apply forallb_forall. intros x Hx.
    apply list_elem_of_In in Hx. apply bool_decide_eq_true_2. intros Hpos.
    apply Hall; [|done]. apply elem_of_tags. by exists rep.
Qed.

(** Without overflow, the shift adds the offset as integers. *)
Lemma masked_add_fits (offset : Z) (xs : list Z) :
  0 ≤ offset → (∀ x, x ∈ xs → x > 0 → x + offset ≤ int_max) →
  masked_add offset xs =
    (λ x, if bool_decide (x > 0) then x + offset else x) <$> xs.
Proof.
  intros Hoff Hfit. unfold masked_add. apply list_fmap_ext. intros i x Hx.
  case_bool_decide; [|done]. apply int_add_fits; try done.
  apply Hfit; [|done]. by apply list_elem_of_lookup_2 in Hx.
Qed.

Lemma tags_shifted_fits (offset : Z) reps :
  0 ≤ offset → shift_fits offset reps = true →
  tags (Repetition_shift_contrasts offset <$> reps) =
    (λ x, if bool_decide (x > 0) then x + offset else x) <$> tags reps.
Proof.
  intros Hoff Hfit. rewrite tags_shifted. apply masked_add_fits; [done|].
  by apply shift_fits_spec.
Qed.

(** After a shift by a non-negative offset that does not overflow, the
    positive tags lie above the offset. *)
Lemma positive_tags_above_offset (offset c : Z) reps :
  0 ≤ offset → shift_fits offset reps = true →
  c ∈ positive_tags (Repetition_shift_contrasts offset <$> reps) → offset < c.
Proof.
  intros Hoff Hfit.
  rewrite elem_of_positive_tags, tags_shifted_fits, list_elem_of_fmap by done.
  intros (Hc & x & -> & _). case_bool_decide; lia.
Qed.

(** The next offset lies above the current one when the sequence has a
    positive tag. *)
Lemma next_offset_above (offset : Z) reps :
  0 ≤ offset → shift_fits offset reps = true → positive_tags reps ≠ [] →
  offset < max_of (tags (Repetition_shift_contrasts offset <$> reps)).
Proof.
  intros Hoff Hfit Hpos.
  destruct (positive_tags reps) as [|x xs] eqn:Hx; [done|].
  assert (Hin : x ∈ positive_tags reps) by (rewrite Hx; left).
  apply elem_of_positive_tags in Hin as [Hx0 Hin].
  assert (Hin' : x + offset ∈ tags (Repetition_shift_contrasts offset <$> reps)).
  { rewrite tags_shifted_fits, list_elem_of_fmap by done. exists x.
    split; [|done]. by rewrite bool_decide_eq_true_2 by lia. }
  assert (Hne : tags (Repetition_shift_contrasts offset <$> reps) ≠ []).
  { intros Hnil. rewrite Hnil in Hin'. by apply elem_of_nil in Hin'. }
  destruct (max_of_spec _ Hne) as [_ Hle]. specialize (Hle _ Hin'). lia.
Qed.

(** The positive tags of block [j] lie above the offset the blocks start
    from, when that offset is not negative, no shift overflows and every
    sequence before [j] has a positive tag. *)
Lemma chain_blocks_above_offset (seqs : list (list (Repetition F)))
    (offset c : Z) (j : nat) (bj : list (Repetition F)) :
  0 ≤ offset → chain_fits offset seqs = true →
  (∀ (k : nat) (s : list (Repetition F)),
     (k < j)%nat → seqs !! k = Some s → positive_tags s ≠ []) →
  chain_blocks offset seqs !! j = Some bj → c ∈ positive_tags bj → offset < c.
Proof.
  revert offset j.
  induction seqs as [|s seqs IH]; intros offset j Hoff Hfit Hpos Hj Hc.
  - done.
  - cbn [chain_blocks] in Hj. cbn [chain_fits] in Hfit.
    apply andb_true_iff in Hfit as [Hfit Hfits]. destruct j as [|j].
    + cbn in Hj. injection Hj as <-.
      by apply (positive_tags_above_offset offset c s).
    + cbn in Hj.
      assert (Hs : positive_tags s ≠ []) by (apply (Hpos 0%nat); [lia | done]).
      pose proof (next_offset_above offset s Hoff Hfit Hs) as Hnext.
      assert (Hoff' : 0 ≤ max_of (tags (Repetition_shift_contrasts offset <$> s)))
        by lia.
      assert (Hpos' : ∀ (k : nat) (s' : list (Repetition F)),
                (k < j)%nat → seqs !! k = Some s' → positive_tags s' ≠ []).
      { intros k s' Hk Hs'. apply (Hpos (S k)); [lia | done]. }
      specialize (IH _ j Hoff' Hfits Hpos' Hj Hc). lia.
Qed.

(** Positive tags of two blocks do not collide when no shift overflows and
    every sequence chained between them has a positive tag. *)
Lemma chain_blocks_disjoint (seqs : list (list (Repetition F))) (offset : Z)
    (i j : nat) (bi bj : list (Repetition F)) (c : Z) :
  chain_fits offset seqs = true →
  (i < j)%nat →
  chain_blocks offset seqs !! i = Some bi →
  chain_blocks offset seqs !! j = Some bj →
  (∀ (k : nat) (s : list (Repetition F)),
     (i < k < j)%nat → seqs !! k = Some s → positive_tags s ≠ []) →
  c ∈ positive_tags bi → c ∉ positive_tags bj.
Proof.
  revert offset i j.
  induction seqs as [|s seqs IH]; intros offset i j Hfit Hij Hi Hj Hpos Hci Hcj.
  - done.
  - cbn [chain_blocks] in Hi, Hj. cbn [chain_fits] in Hfit.
    apply andb_true_iff in Hfit as [Hfit Hfits].
    destruct j as [|j]; [lia|].
    cbn in Hj. destruct i as [|i].
    + cbn in Hi. injection Hi as <-.
      apply elem_of_positive_tags in Hci as [Hc0 Hci].
      assert (Hne : tags (Repetition_shift_contrasts offset <$> s) ≠ []).
      { intros Hnil. rewrite Hnil in Hci. by apply elem_of_nil in Hci. }
      destruct (max_of_spec _ Hne) as [_ Hle]. specialize (Hle _ Hci).
      assert (Hoff' : 0 ≤ max_of (tags (Repetition_shift_contrasts offset <$> s)))
        by lia.
      assert (Hpos' : ∀ (k : nat) (s' : list (Repetition F)),
                (k < j)%nat → seqs !! k = Some s' → positive_tags s' ≠ []).
      { intros k s' Hk Hs'. apply (Hpos (S k)); [lia | done]. }
      pose proof (chain_blocks_above_offset seqs _ c j bj Hoff' Hfits Hpos' Hj Hcj).
      lia.
    + cbn in Hi.
      apply (IH (max_of (tags (Repetition_shift_contrasts offset <$> s))) i j);
        try done; [lia|].
      intros k s' Hk Hs'. apply (Hpos (S k)); [lia | done].
Qed.

End TagProofs.

(** ** [chain] *)

Section ChainProofs.
Context {F : Type} {ops : FloatOps F} {dt : IntDtype}.

Implicit Types (h : Store F) (r : loc) (rep : Repetition F).
Implicit Types (seq temp combined : list loc) (sequences : list (list loc)).

(** One turn of the loop of [chain] without [oneshot], on an argument that
    has a repetition. *)
Lemma chain_loop_step seq sequences h combined (offset : Z) :
  Forall (object_ok h) seq → seq ≠ [] →
  ∃ temp h2,
    chain_loop false (seq :: sequences) combined offset h =
      chain_loop false sequences (combined ++ temp)
        (max_of (tags (Repetition_shift_contrasts offset <$> values h seq))) h2
    ∧ store_le h h2
    ∧ (∀ r, r ∈ temp → h !! r = None)
    ∧ Forall (object_ok h2) temp
    ∧ values h2 temp = Repetition_shift_contrasts offset <$> values h seq.
Proof.
  intros Hok Hne.
  destruct (clone_then_shift offset seq h Hok)
    as (temp & h1 & h2 & Hclone & Hshift & Hsub2 & Hnew & Hok2 & Hval2).
  exists temp, h2. split; [|done].
  cbn [chain_loop negb]. unfold py_bind at 1. rewrite Hclone.
  unfold py_bind at 1. rewrite Hshift.
  unfold py_bind at 1. unfold py_bind at 1.
  rewrite (get_objects_values h2 temp Hok2), Hval2.
  rewrite py_max_get_contrasts; [done|].
  apply tags_nonempty.
  - intros Hnil. apply (f_equal length) in Hnil.
    rewrite length_fmap, (length_values _ _ Hok) in Hnil.
    destruct seq; [done | simpl in *; lia].
  - rewrite <- Hval2. by apply values_ok.
Qed.

Lemma sequences_ok_weaken h h' sequences :
  store_le h h' → Forall (Forall (object_ok h)) sequences →
  Forall (Forall (object_ok h')) sequences.
Proof.
  intros Hsub Hok. eapply Forall_impl; [exact Hok|]. intros s Hs.
  eapply Forall_impl; [exact Hs|]. intros r. by apply object_ok_weaken.
Qed.

Lemma sequences_values_weaken h h' sequences :
  store_le h h' → Forall (Forall (object_ok h)) sequences →
  values h' <$> sequences = values h <$> sequences.
Proof.
  intros Hsub Hok. apply list_fmap_ext. intros i s Hs.
  apply values_weaken; [done|].
  rewrite Forall_forall in Hok. apply Hok. by apply list_elem_of_lookup_2 in Hs.
Qed.

(** The loop appends, argument after argument, new objects that hold the
    blocks of [chain_blocks], and changes nothing that exists. *)
Lemma chain_loop_spec sequences h combined (offset : Z) :
  Forall (Forall (object_ok h)) sequences → [] ∉ sequences →
  ∃ new h',
    chain_loop false sequences combined offset h = Ok (combined ++ new, h')
    ∧ store_le h h'
    ∧ (∀ r, r ∈ new → h !! r = None)
    ∧ Forall (object_ok h') new
    ∧ values h' new = concat (chain_blocks offset (values h <$> sequences)).
Proof.
  revert h combined offset.
  induction sequences as [|seq sequences IH]; intros h combined offset Hok Hne.
  - exists [], h. rewrite app_nil_r. split; [done|].
    split; [apply store_le_refl|]. split; [by intros r [] %elem_of_nil|].
    by split.
  - apply Forall_cons in Hok as [Hseq Hok].
    apply not_elem_of_cons in Hne as [Hne Hne'].
    destruct (chain_loop_step seq sequences h combined offset Hseq)
      as (temp & h2 & Hstep & Hsub2 & Hnew & Hok2 & Hval2); [done|].
    destruct (IH h2 (combined ++ temp)
                (max_of (tags (Repetition_shift_contrasts offset <$> values h seq))))
      as (new & h' & Hloop & Hsub & Hnew' & Hok' & Hval'); [|done|].
    { by apply (sequences_ok_weaken h). }
    exists (temp ++ new), h'. split; [|split; [|split; [|split]]].
    + by rewrite Hstep, Hloop, app_assoc.
    + by apply (store_le_trans h h2 h').
    + intros l [Hl|Hl] %elem_of_app; [by apply Hnew|].
      apply Hnew' in Hl. by apply (lookup_store_weaken_None h h2).
    + apply Forall_app. split; [|done].
      eapply Forall_impl; [exact Hok2|]. intros l. by apply object_ok_weaken.
    + rewrite values_app, Hval', (values_weaken h2 h' temp Hsub Hok2), Hval2.
      rewrite (sequences_values_weaken h h2) by done. done.
Qed.

(** An argument without repetitions makes the loop raise ValueError, from
    [max] of the empty list of contrasts, whatever the arguments after it
    are. *)
Lemma chain_loop_empty_raises pre rest h combined (offset : Z) :
  Forall (Forall (object_ok h)) pre → [] ∉ pre →
  chain_loop false (pre ++ [] :: rest) combined offset h = Raise ValueError.
Proof.
  revert h combined offset.
  induction pre as [|seq pre IH]; intros h combined offset Hok Hne.
  - reflexivity.
  - apply Forall_cons in Hok as [Hseq Hok].
    apply not_elem_of_cons in Hne as [Hne Hne'].
    rewrite <- app_comm_cons.
    destruct (chain_loop_step seq (pre ++ [] :: rest) h combined offset Hseq)
      as (temp & h2 & -> & Hsub2 & _); [done|].
    apply IH; [|done]. by apply (sequences_ok_weaken h).
Qed.

(** The docstring's example on the blocks: contrasts [1, 3] and [2] give
    [1, 3, 5]. *)
Lemma chain_blocks_example (sA sB : list (Repetition F)) :
  Sequence_get_contrasts sA = [1; 3] → Sequence_get_contrasts sB = [2] →
  Sequence_get_contrasts (concat (chain_blocks 0 [sA; sB])) = [1; 3; 5].
Proof.
  intros HA HB.
  assert (HtA : ∀ x, x ∈ tags sA ↔ x = 1 ∨ x = 3).
  { intros x. rewrite <- elem_of_get_contrasts, HA.
    rewrite !elem_of_cons, elem_of_nil. tauto. }
  assert (HtB : ∀ x, x ∈ tags sB ↔ x = 2).
  { intros x. rewrite <- elem_of_get_contrasts, HB.
    rewrite !elem_of_cons, elem_of_nil. tauto. }
  assert (Hshift0 : tags (Repetition_shift_contrasts 0 <$> sA) = tags sA).
  { by rewrite tags_shifted, masked_add_0. }
  assert (Hmax : max_of (tags (Repetition_shift_contrasts 0 <$> sA)) = 3).
  { rewrite Hshift0.
    assert (Hne : tags sA ≠ []).
    { intros Hnil. assert (H3 : 3 ∈ tags sA) by (apply HtA; tauto).
      rewrite Hnil in H3. by apply elem_of_nil in H3. }
    destruct (max_of_spec _ Hne) as [Hin Hle].
    apply HtA in Hin. specialize (Hle 3 ltac:(apply HtA; tauto)). lia. }
  assert (H5 : int_add 2 3 = 5).
  { pose proof int_range_bytes. rewrite int_add_fits; lia. }
  cbn [chain_blocks concat]. rewrite Hmax, app_nil_r.
  apply get_contrasts_unique.
  - repeat constructor; lia.
  - repeat constructor; rewrite ?elem_of_cons, ?elem_of_nil; lia.
  - intros x. unfold tags at 1. rewrite bind_app. fold (tags (Repetition_shift_contrasts 0 <$> sA)).
    fold (tags (Repetition_shift_contrasts 3 <$> sB)).
    rewrite elem_of_app, Hshift0, HtA, tags_shifted, elem_of_masked_add.
    rewrite !elem_of_cons, elem_of_nil. split.
    + intros [[->| ->]|(y & Hy & ->)]; [tauto | tauto |].
      apply HtB in Hy as ->. rewrite bool_decide_eq_true_2 by lia.
      rewrite H5. tauto.
    + intros [->|[->|[->|[]]]]; [tauto | tauto |].
      right. exists 2. split; [by apply HtB|].
      by rewrite bool_decide_eq_true_2 by lia.
Qed.

End ChainProofs.

Section ChainTheorems.
Context {F : Type} {ops : FloatOps F} {dt : IntDtype}.

Implicit Types (h : Store F) (sequences : list (list loc)).

(** C6 (amended): when the arguments of [chain] without [oneshot] that come
    before an argument without repetitions have repetitions of their own,
    built by the constructor and with pulses that hold tensors, the call
    raises ValueError, from [max] applied to the empty list of contrasts,
    whatever the arguments after it are; the error reaches the caller and no
    sequence is returned, although the arguments before the empty one chain
    to a sequence when they are passed alone. *)
Theorem chain_empty_sequence_raises h (pre rest : list (list loc)) :
  chain_args_ok h pre = true → [] ∉ pre →
  chain false (pre ++ [] :: rest) h = Raise ValueError
  ∧ ∃ combined h', chain false pre h = Ok (combined, h').
Proof.
  intros Hok Hne. apply chain_args_ok_spec in Hok. split.
  - by apply chain_loop_empty_raises.
  - destruct (chain_loop_spec pre h [] 0 Hok Hne) as (new & h' & Hchain & _).
    by exists new, h'.
Qed.

(** X19: [chain] without [oneshot], on arguments that have repetitions
    built by the constructor with pulses that hold tensors, returns one new
    object per repetition of the arguments; their values are, in call
    order, the arguments' repetitions shifted by the running offset, which
    starts at [0] and after each argument is the largest tag, of any sign,
    of the argument as shifted ([chain_blocks]); no object that existed
    before the call is changed. *)
Theorem chain_appends_shifted_clones h sequences :
  chain_args_ok h sequences = true → [] ∉ sequences →
  ∃ combined h',
    chain false sequences h = Ok (combined, h')
    ∧ (∀ r rep, h !! r = Some rep → h' !! r = Some rep)
    ∧ (∀ r, r ∈ combined → h !! r = None)
    ∧ length combined = length (concat sequences)
    ∧ values h' combined = concat (chain_blocks 0 (values h <$> sequences)).
Proof.
  intros Hok Hne. apply chain_args_ok_spec in Hok.
  destruct (chain_loop_spec sequences h [] 0 Hok Hne)
    as (combined & h' & Hchain & Hsub & Hnew & Hok' & Hval).
  exists combined, h'. split; [exact Hchain|].
  split; [intros r rep Hr; by apply (lookup_store_weaken h h')|].
  split; [exact Hnew|]. split; [|exact Hval].
  rewrite <- (length_values h' combined Hok'), Hval.
  clear Hchain Hnew Hval Hok' Hsub Hne. generalize 0.
  induction Hok as [|s sequences Hs _ IH]; intros offset; [done|].
  cbn [chain_blocks fmap list_fmap concat].
  rewrite !length_app, length_fmap, (length_values _ _ Hs). f_equal. apply IH.
Qed.

(** X20: the docstring's example: arguments with the contrasts [1, 3] and
    [2] chain to a sequence with the contrasts [1, 3, 5], and have the
    contrasts [1, 3] and [2] after the call as before. *)
Theorem chain_docstring_example h (seqA seqB : list loc) :
  chain_args_ok h [seqA; seqB] = true →
  Sequence_get_contrasts (values h seqA) = [1; 3] →
  Sequence_get_contrasts (values h seqB) = [2] →
  ∃ combined h',
    chain false [seqA; seqB] h = Ok (combined, h')
    ∧ Sequence_get_contrasts (values h' combined) = [1; 3; 5]
    ∧ Sequence_get_contrasts (values h' seqA) = [1; 3]
    ∧ Sequence_get_contrasts (values h' seqB) = [2].
Proof.
  intros Hok HA HB. apply chain_args_ok_spec in Hok.
  assert (Hne : [] ∉ [seqA; seqB]).
  { rewrite !not_elem_of_cons. split; [|split; [|apply not_elem_of_nil]].
    - intros <-. done.
    - intros <-. done. }
  destruct (chain_loop_spec [seqA; seqB] h [] 0 Hok Hne)
    as (combined & h' & Hchain & Hsub & _ & _ & Hval).
  exists combined, h'. split; [exact Hchain|].
  apply Forall_cons in Hok as [HokA Hok].
  apply Forall_cons in Hok as [HokB _].
  rewrite Hval, (values_weaken h h' seqA), (values_weaken h h' seqB) by done.
  split; [|done]. by apply chain_blocks_example.
Qed.

(** X21: when every argument has a repetition and no shift takes a tag
    past the largest value of the integer type, positive tags of two
    arguments do not collide in what [chain] without [oneshot] returns for
    them, provided every argument chained between the two has a positive
    tag; so the arguments next to each other never collide. *)
Theorem chain_no_collision h sequences :
  chain_args_ok h sequences = true → [] ∉ sequences →
  chain_fits 0 (values h <$> sequences) = true →
  ∃ combined h',
    chain false sequences h = Ok (combined, h')
    ∧ values h' combined = concat (chain_blocks 0 (values h <$> sequences))
    ∧ ∀ (i j : nat) (bi bj : list (Repetition F)) (c : Z),
        (i < j)%nat →
        chain_blocks 0 (values h <$> sequences) !! i = Some bi →
        chain_blocks 0 (values h <$> sequences) !! j = Some bj →
        (∀ (k : nat) (s : list loc),
           (i < k < j)%nat → sequences !! k = Some s →
           positive_tags (values h s) ≠ []) →
        c ∈ positive_tags bi → c ∉ positive_tags bj.
Proof.
  intros Hok Hne Hfit. apply chain_args_ok_spec in Hok.
  destruct (chain_loop_spec sequences h [] 0 Hok Hne)
    as (combined & h' & Hchain & _ & _ & _ & Hval).
  exists combined, h'. split; [exact Hchain|]. split; [exact Hval|].
  intros i j bi bj c Hij Hi Hj Hpos.
  apply (chain_blocks_disjoint (values h <$> sequences) 0 i j); try done.
  intros k s Hk Hs. rewrite list_lookup_fmap in Hs.
  destruct (sequences !! k) as [s'|] eqn:Hs'; [|done].
  injection Hs as <-. by apply (Hpos k).
Qed.

End ChainTheorems.

(** Three one-event repetitions with the tags [2], [0] and [1]. *)
Lemma chain_offset_reset_example :
  let h : Store Z :=
    <[1%positive := example_rep EXCIT [1] [0; 0; 0] [2]]>
      (<[2%positive := example_rep EXCIT [1] [0; 0; 0] [0]]>
         (<[3%positive := example_rep EXCIT [1] [0; 0; 0] [1]]> ∅)) in
  match chain false [[1%positive]; [2%positive]; [3%positive]] h with
  | Ok (combined, h') => (λ r, tags (values h' [r])) <$> combined = [[2]; [0]; [1]]
  | Raise _ => False
  end.
Proof. vm_compute. reflexivity. Qed.

(** C5: [chain] is documented to shift the contrasts so that they do not
    overlap, but after an argument that measures nothing the offset is that
    argument's largest tag, here [0]: the third argument keeps its tag [1],
    which the first argument uses as well, and the tag [1] of the combined
    sequence selects samples of both. *)
Theorem chain_collision_after_unmeasured :
  let h : Store Z :=
    <[1%positive := example_rep EXCIT [1] [0; 0; 0] [1]]>
      (<[2%positive := example_rep EXCIT [1] [0; 0; 0] [0]]>
         (<[3%positive := example_rep EXCIT [1] [0; 0; 0] [1]]> ∅)) in
  chain_args_ok h [[1%positive]; [2%positive]; [3%positive]] = true
  ∧ match chain false [[1%positive]; [2%positive]; [3%positive]] h with
    | Ok (combined, h') =>
        (λ r, tags (values h' [r])) <$> combined = [[1]; [0]; [1]]
        ∧ Sequence_get_contrasts (values h' combined) = [0; 1]
        ∧ Sequence_get_contrast_mask 1 (values h' combined) = Ok [true; true]
    | Raise _ => False
    end.
Proof. vm_compute. repeat split. Qed.

(** When the repetition before the argument without repetitions has a pulse
    built from Python floats, cloning it raises AttributeError first. *)
Lemma chain_float_pulse_before_empty :
  let h : Store Z :=
    <[1%positive := mkRepetition (Pulse_zero (F:=Z)) 1 (mkTensor CPU [1%nat] [1])
                      (mkTensor CPU [1%nat; 3%nat] [0; 0; 0])
                      (mkTensor CPU [1%nat] [0]) (mkTensor CPU [1%nat] [1])]> ∅ in
  chain false [[1%positive]; []] h = Raise AttributeError.
Proof. vm_compute. reflexivity. Qed.

(** C6 as stated fails: the call raises ValueError when an argument has no
    repetitions; and an argument with repetitions but no positive tag does
    not leave the offset at [2] either, the third argument keeps its tag
    [1]. *)
Lemma chain_empty_sequence_counterexample :
  chain (F:=Z) false [[]] ∅ = Raise ValueError
  ∧ let h : Store Z :=
      <[1%positive := example_rep EXCIT [1] [0; 0; 0] [2]]>
        (<[2%positive := example_rep EXCIT [1] [0; 0; 0] [0]]>
           (<[3%positive := example_rep EXCIT [1] [0; 0; 0] [1]]> ∅)) in
    match chain false [[1%positive]; [2%positive]; [3%positive]] h with
    | Ok (combined, h') =>
        (λ r, tags (values h' [r])) <$> combined = [[2]; [0]; [1]]
    | Raise _ => False
    end.
Proof. split; [reflexivity | exact chain_offset_reset_example]. Qed.

Lemma chain_empty_sequence_raises_witness :
  let h : Store Z :=
    <[1%positive := example_rep EXCIT [1] [0; 0; 0] [2]]> ∅ in
  chain false ([[1%positive]] ++ [] :: [[2%positive]]) h = Raise ValueError
  ∧ ∃ combined h', chain false [[1%positive]] h = Ok (combined, h').
Proof.
  intros h.
  apply (chain_empty_sequence_raises (F:=Z) h [[1%positive]] [[2%positive]]).
  - vm_compute. reflexivity.
  - apply (bool_decide_unpack _). vm_compute. exact I.
Defined.

(** ** Cloning, device transfer and zero repetitions *)

Section TransferProofs.
Context {F : Type} {ops : FloatOps F} {cast : FloatCast F}.

Implicit Types (rep : Repetition F) (p : Pulse F).

Lemma Pulse_clone_float p :
  Pulse_has_tensors p = false → Pulse_clone p = Raise AttributeError.
Proof.
  destruct p as [u a ph s]. unfold Pulse_has_tensors, Pulse_clone. simpl.
  destruct a, ph; try discriminate; done.
Qed.

(** X1: on a repetition as [__init__] returns it, [Repetition.clone]
    returns an equal repetition when the angle and the phase of its pulse
    are tensors, and raises AttributeError as soon as one of them is a
    Python float. *)
Theorem Repetition_clone_cases rep :
  Repetition_ok rep = true →
  Repetition_clone rep =
    if Pulse_has_tensors (pulse rep) then Ok rep else Raise AttributeError.
Proof.
  intros Hok. destruct (Pulse_has_tensors (pulse rep)) eqn:Hp.
  - by apply Repetition_clone_ok.
  - unfold Repetition_clone. by rewrite (Pulse_clone_float _ Hp).
Qed.

Lemma tensor_cpu_ok {A : Type} (t : Tensor A) : tensor_ok (tensor_cpu t) = tensor_ok t.
Proof. done. Qed.

Lemma Pulse_cpu_has_tensors p : Pulse_has_tensors (Pulse_cpu p) = true.
Proof. done. Qed.

Lemma Repetition_cpu_Ok rep :
  Repetition_ok rep = true →
  Repetition_cpu rep =
    Ok (mkRepetition (Pulse_cpu (pulse rep)) (event_count rep)
          (tensor_cpu (event_time rep)) (tensor_cpu (gradm rep))
          (tensor_cpu (adc_phase rep)) (tensor_cpu (adc_usage rep))).
Proof.
  intros Hok. apply Repetition_ok_inv in Hok.
  destruct Hok as (HN & H1 & H2 & H3 & H4 & _).
  unfold Repetition_cpu. by apply Repetition_init_fits.
Qed.

(** X2: [Repetition.cpu] of a repetition as [__init__] returns it succeeds;
    the copy has the same events (count, durations, gradient moments, ADC
    phases and tags) and pulse usage, lies on the CPU, and its pulse holds
    tensors, so that [clone] succeeds on it whatever the original pulse
    held. *)
Theorem Repetition_cpu_clonable rep :
  Repetition_ok rep = true →
  ∃ rep',
    Repetition_cpu rep = Ok rep'
    ∧ Repetition_ok rep' = true
    ∧ event_count rep' = event_count rep
    ∧ data (event_time rep') = data (event_time rep)
    ∧ data (gradm rep') = data (gradm rep)
    ∧ data (adc_phase rep') = data (adc_phase rep)
    ∧ data (adc_usage rep') = data (adc_usage rep)
    ∧ usage (pulse rep') = usage (pulse rep)
    ∧ selective (pulse rep') = selective (pulse rep)
    ∧ Repetition_device rep' = CPU
    ∧ Repetition_clone rep' = Ok rep'.
Proof.
  intros Hok. eexists. split; [by apply Repetition_cpu_Ok|].
  assert (Hok' : Repetition_ok
    (mkRepetition (Pulse_cpu (pulse rep)) (event_count rep)
       (tensor_cpu (event_time rep)) (tensor_cpu (gradm rep))
       (tensor_cpu (adc_phase rep)) (tensor_cpu (adc_usage rep))) = true).
  { rewrite <- Hok. done. }
  repeat split; try done.
  by apply Repetition_clone_ok.
Qed.

Lemma torch_zeros_nonneg {A : Type} (zero : A) (size : list Z) :
  Forall (λ n, 0 ≤ n) size →
  torch_zeros zero size =
    Ok (mkTensor CPU (Z.to_nat <$> size)
          (replicate (foldr Nat.mul 1%nat (Z.to_nat <$> size)) zero)).
Proof. intros H. unfold torch_zeros. by rewrite bool_decide_eq_true_2. Qed.

Lemma torch_zeros_negative {A : Type} (zero : A) (n : Z) (size : list Z) :
  n < 0 → torch_zeros zero (n :: size) = Raise RuntimeError.
Proof.
  intros Hn. unfold torch_zeros. rewrite bool_decide_eq_false_2; [done|].
  intros H. apply Forall_cons in H as [H _]. lia.
Qed.

Lemma Repetition_zero_positive (n : Z) :
  1 ≤ n →
  Repetition_zero n =
    Ok (mkRepetition Pulse_zero (Z.to_nat n)
          (mkTensor CPU [Z.to_nat n] (replicate (Z.to_nat n * 1) fzero))
          (mkTensor CPU [Z.to_nat n; 3%nat] (replicate (Z.to_nat n * (3 * 1)) fzero))
          (mkTensor CPU [Z.to_nat n] (replicate (Z.to_nat n * 1) fzero))
          (mkTensor CPU [Z.to_nat n] (replicate (Z.to_nat n * 1) 0))).
Proof.
  intros Hn. unfold Repetition_zero.
  rewrite !torch_zeros_nonneg by (repeat constructor; lia).
  cbn [exc_bind fmap list_fmap foldr].
  replace (Z.to_nat 3) with 3%nat by done.
  apply Repetition_init_fits; try done. lia.
Qed.

Lemma Repetition_zero_outcome (n : Z) :
  (1 ≤ n ∧ ∃ rep, Repetition_zero n = Ok rep)
  ∨ (n = 0 ∧ Repetition_zero n = Raise ValueError)
  ∨ (n < 0 ∧ Repetition_zero n = Raise RuntimeError).
Proof.
  destruct (Z.lt_trichotomy n 0) as [Hneg|[->|Hpos]].
  - right. right. split; [done|].
    unfold Repetition_zero. by rewrite torch_zeros_negative by done.
  - right. left. by split.
  - left. split; [lia|]. eexists. apply Repetition_zero_positive. lia.
Qed.

(** X3: [Repetition.zero(n)] returns a repetition exactly for [n ≥ 1]: it
    has [n] events, all durations, gradient moments and tags are zero, so
    that nothing is measured, and its pulse is [Pulse.zero()], whose angle
    is a Python float, so that [clone] raises AttributeError on it.  For
    [n = 0] the constructor raises ValueError, for [n < 0] [torch.zeros]
    raises RuntimeError. *)
Theorem Repetition_zero_cases (n : Z) :
  match Repetition_zero n with
  | Ok rep =>
      1 ≤ n
      ∧ Repetition_ok rep = true
      ∧ event_count rep = Z.to_nat n
      ∧ pulse rep = Pulse_zero
      ∧ data (event_time rep) = replicate (Z.to_nat n) fzero
      ∧ data (gradm rep) = replicate (Z.to_nat n * 3) fzero
      ∧ data (adc_phase rep) = replicate (Z.to_nat n) fzero
      ∧ data (adc_usage rep) = replicate (Z.to_nat n) 0
      ∧ Repetition_clone rep = Raise AttributeError
  | Raise e => (n = 0 ∧ e = ValueError) ∨ (n < 0 ∧ e = RuntimeError)
  end.
Proof.
  destruct (Z.lt_trichotomy n 0) as [Hneg|[->|Hpos]].
  - unfold Repetition_zero. rewrite torch_zeros_negative by done. simpl.
    right. by split.
  - cbn. left. by split.
  - rewrite Repetition_zero_positive by lia. cbn [event_count pulse event_time
      gradm adc_phase adc_usage data].
    rewrite !Nat.mul_1_r.
    split; [lia|]. split.
    { unfold Repetition_ok, tensor_ok, numel. simpl.
      rewrite !length_replicate.
      rewrite !bool_decide_eq_true_2; try done; lia. }
    repeat split; done.
Qed.

End TransferProofs.

(** ** Contrasts, masks and measured samples under shifting *)

Section ContrastProofs.
Context {F : Type} {ops : FloatOps F} {dt : IntDtype}.

Implicit Types (rep : Repetition F) (reps self : list (Repetition F)).

Lemma StronglySorted_le_lt (l : list Z) :
  StronglySorted Z.le l → NoDup l → StronglySorted Z.lt l.
Proof.
  induction 1 as [|x l _ IH Hx]; intros Hnd; [constructor|].
  apply NoDup_cons in Hnd as [Hnin Hnd]. constructor; [by apply IH|].
  rewrite Forall_forall in Hx |- *. intros y Hy.
  specialize (Hx y Hy). assert (x ≠ y) by (by intros ->). lia.
Qed.

(** X4: [Sequence.get_contrasts] returns, in strictly increasing order, the
    values that occur in the [adc_usage] of some repetition, the tag [0] and
    negative tags of unmeasured events included. *)
Theorem get_contrasts_characterised self :
  StronglySorted Z.lt (Sequence_get_contrasts self)
  ∧ ∀ x : Z, x ∈ Sequence_get_contrasts self ↔
             ∃ rep, rep ∈ self ∧ x ∈ data (adc_usage rep).
Proof.
  destruct (get_contrasts_sorted self) as [Hs Hn]. split.
  - by apply StronglySorted_le_lt.
  - intros x. rewrite elem_of_get_contrasts, elem_of_tags.
    split; intros (rep & H1 & H2); exists rep; done.
Qed.





Lemma usage_fits (offset : Z) rep :
  shift_fits offset [rep] = true →
  ∀ x, x ∈ data (adc_usage rep) → x > 0 → x + offset ≤ int_max.
Proof.
  intros Hfit x Hx. apply (proj1 (shift_fits_spec offset [rep]) Hfit).
  apply elem_of_tags. exists rep. split; [done | left].
Qed.

Lemma positive_mask_shifted (offset : Z) (us : list Z) :
  0 ≤ offset → (∀ x, x ∈ us → x > 0 → x + offset ≤ int_max) →
  (λ u, bool_decide (u > 0)) <$> masked_add offset us =
    (λ u, bool_decide (u > 0)) <$> us.
Proof.
  intros Hoff Hfit. rewrite masked_add_fits by done.
  rewrite <- list_fmap_compose.
  apply list_fmap_ext. intros _ u _. simpl.
  destruct (decide (u > 0)) as [Hu|Hu].
  - rewrite (bool_decide_eq_true_2 (u > 0)) by done.
    apply bool_decide_eq_true_2. lia.
  - rewrite (bool_decide_eq_false_2 (u > 0)) by done.
    by apply bool_decide_eq_false_2.
Qed.




Lemma get_kspace_nonempty self :
  self ≠ [] → Forall (λ rep, Repetition_ok rep = true) self →
  Sequence_get_kspace self =
    Ok (concat (zip_with measured (reference_kspace vzero vzero self) self)).
Proof.
  intros Hne Hok.
  pose proof (reference_kspace_lengths self vzero vzero) as Hlen.
  unfold Sequence_get_kspace.
  rewrite get_full_kspace_nonempty by done. cbn [exc_bind].
  rewrite get_kspace_parts by done. cbn [exc_bind].
  destruct self as [|rep reps]; [done|].
  cbn [reference_kspace] in *. destruct (pulse_adjust _ _ _). done.
Qed.

Lemma measured_count_positive_tags self :
  measured_count self = length (positive_tags self).
Proof.
  unfold measured_count, positive_tags, tags.
  induction self as [|rep reps IH]; [done|].
  rewrite fmap_cons. cbn [sum_list sum_list_with mbind list_bind].
  by rewrite filter_app, length_app, IH.
Qed.

Lemma nonzero_is_positive (us : list Z) :
  Forall (λ u, 0 ≤ u) us →
  filter (λ u : Z, u ≠ 0) us = filter (λ u : Z, 0 < u) us.
Proof.
  induction 1 as [|u us Hu _ IH]; [done|].
  rewrite !filter_cons, IH. repeat case_decide; try done; lia.
Qed.

Lemma forallb_tags_Forall (P : Z → Prop) `{!∀ u, Decision (P u)} self :
  forallb (λ rep, forallb (λ u, bool_decide (P u)) (data (adc_usage rep))) self
    = true →
  Forall (λ rep, Forall P (data (adc_usage rep))) self.
Proof.
  rewrite forallb_forall, Forall_forall. intros Hall rep Hrep.
  apply list_elem_of_In in Hrep. specialize (Hall rep Hrep).
  rewrite forallb_forall in Hall. rewrite Forall_forall. intros u Hu.
  apply list_elem_of_In in Hu. specialize (Hall u Hu).
  by apply bool_decide_eq_true in Hall.
Qed.

Lemma filter_positive_nil (us : list Z) :
  Forall (λ u, u ≤ 0) us → filter (λ u : Z, 0 < u) us = [].
Proof.
  induction 1 as [|u us Hu _ IH]; [done|].
  rewrite filter_cons, IH. case_decide; [lia | done].
Qed.

Lemma contrast_flags_positive (c : Z) self :
  Forall (λ rep, Forall (λ u, 0 ≤ u) (data (adc_usage rep))) self →
  concat (contrast_flags c <$> self) =
    (λ u, bool_decide (u = c)) <$> positive_tags self.
Proof.
  unfold positive_tags, tags, contrast_flags.
  induction 1 as [|rep reps Hrep _ IH]; [done|].
  rewrite fmap_cons. cbn [concat mbind list_bind].
  by rewrite filter_app, fmap_app, IH, nonzero_is_positive.
Qed.

(** X7: on a sequence with at least one repetition and no negative tag,
    [get_contrast_mask(c)] has one entry per row of [get_kspace()], in the
    same order, and the entry is true exactly when the measured event has
    the tag [c]. *)
Theorem contrast_mask_aligned (c : Z) self :
  self ≠ [] → forallb Repetition_ok self = true →
  forallb (λ rep, forallb (λ u, bool_decide (0 ≤ u)) (data (adc_usage rep))) self
    = true →
  ∃ mask rows,
    Sequence_get_contrast_mask c self = Ok mask
    ∧ Sequence_get_kspace self = Ok rows
    ∧ length mask = length rows
    ∧ mask = (λ u, bool_decide (u = c)) <$> positive_tags self.
Proof.
  intros Hne Hok Hnn. apply forallb_Forall_ok in Hok.
  apply (forallb_tags_Forall (λ u, 0 ≤ u)) in Hnn.
  eexists _, _. split; [by apply get_contrast_mask_flags|].
  split; [by apply get_kspace_nonempty|].
  rewrite contrast_flags_positive by done. split; [|done].
  rewrite length_fmap, length_concat_measured;
    [by rewrite measured_count_positive_tags | apply reference_kspace_lengths | done].
Qed.

(** X8: a sequence with at least one repetition in which no event has a
    positive tag measures nothing: [get_kspace] returns no rows, without an
    error. *)
Theorem get_kspace_nothing_measured self :
  self ≠ [] → forallb Repetition_ok self = true →
  forallb (λ rep, forallb (λ u, bool_decide (u ≤ 0)) (data (adc_usage rep))) self
    = true →
  Sequence_get_kspace self = Ok [].
Proof.
  intros Hne Hok Hnp. apply forallb_Forall_ok in Hok.
  apply (forallb_tags_Forall (λ u, u ≤ 0)) in Hnp.
  rewrite get_kspace_nonempty by done. f_equal. apply length_zero_iff_nil.
  rewrite length_concat_measured; [|apply reference_kspace_lengths | done].
  unfold measured_count. clear Hne Hok.
  induction Hnp as [|rep reps Hrep _ IH]; [done|].
  rewrite fmap_cons. cbn [sum_list sum_list_with].
  by rewrite IH, filter_positive_nil.
Qed.

End ContrastProofs.

(** ** How the trajectory of a repetition depends on the repetitions before *)

Section CarriedStateProofs.
Context {F : Type} {ops : FloatOps F} {dt : IntDtype}.

Implicit Types (rep : Repetition F) (reps self : list (Repetition F)).
Implicit Types (k_pos stored : Vec4 F).

Lemma carried_state_app k_pos stored reps1 reps2 :
  carried_state k_pos stored (reps1 ++ reps2) =
    carried_state (carried_state k_pos stored reps1).1
      (carried_state k_pos stored reps1).2 reps2.
Proof.
  revert k_pos stored. induction reps1 as [|rep reps1 IH]; intros k_pos stored.
  - done.
  - cbn [app carried_state]. destruct (pulse_adjust _ _ _) as [k s]. apply IH.
Qed.

Lemma reference_kspace_app k_pos stored reps1 reps2 :
  reference_kspace k_pos stored (reps1 ++ reps2) =
    reference_kspace k_pos stored reps1 ++
    reference_kspace (carried_state k_pos stored reps1).1
      (carried_state k_pos stored reps1).2 reps2.
Proof.
  revert k_pos stored. induction reps1 as [|rep reps1 IH]; intros k_pos stored.
  - done.
  - cbn [app reference_kspace carried_state].
    destruct (pulse_adjust _ _ _) as [k s]. by rewrite IH.
Qed.

Lemma rep_trajectory_last k_pos rep :
  Repetition_ok rep = true → ∃ p, last (rep_trajectory k_pos rep) = Some p.
Proof.
  intros Hok. destruct (last (rep_trajectory k_pos rep)) as [p|] eqn:Hl; [eauto|].
  apply last_None in Hl. apply (f_equal length) in Hl.
  rewrite length_rep_trajectory in Hl. simpl in Hl.
  apply Repetition_ok_inv in Hok. lia.
Qed.

(** The carried position after some repetitions is the last row of the last
    trajectory. *)
Lemma carried_position_last k_pos stored reps :
  reps ≠ [] → Forall (λ rep, Repetition_ok rep = true) reps →
  ∃ t p, last (reference_kspace k_pos stored reps) = Some t
         ∧ last t = Some p
         ∧ (carried_state k_pos stored reps).1 = p.
Proof.
  induction reps as [|rep reps _] using rev_ind; [done|]. intros _ Hok.
  apply Forall_app in Hok as [_ Hrep]. rewrite Forall_singleton in Hrep.
  rewrite reference_kspace_app, carried_state_app.
  destruct (carried_state k_pos stored reps) as [k0 s0]. cbn [fst snd].
  cbn [reference_kspace carried_state].
  destruct (pulse_adjust _ _ _) as [k s].
  destruct (rep_trajectory_last k rep Hrep) as [p Hp].
  exists (rep_trajectory k rep), p. rewrite last_snoc, Hp. done.
Qed.

(** Without a STORE pulse the stored position stays what it was. *)
Lemma carried_stored_no_store k_pos stored reps :
  Forall (λ rep, usage (pulse rep) ≠ STORE) reps →
  (carried_state k_pos stored reps).2 = stored.
Proof.
  intros Hns. revert k_pos stored.
  induction Hns as [|rep reps Hrep _ IH]; intros k_pos stored; [done|].
  cbn [carried_state].
  destruct (usage (pulse rep)) eqn:Hu; try done; cbn [pulse_adjust]; apply IH.
Qed.

Lemma forallb_ok_app reps1 reps2 :
  forallb Repetition_ok (reps1 ++ reps2) = true →
  Forall (λ rep, Repetition_ok rep = true) reps1
  ∧ Forall (λ rep, Repetition_ok rep = true) reps2.
Proof.
  intros H. apply forallb_Forall_ok in H. by apply Forall_app in H.
Qed.

(** X9: repetitions appended to a sequence do not change the trajectories
    of the repetitions before them: the full trajectory of [reps1] is the
    beginning of the full trajectory of [reps1 ++ reps2], which has one more
    trajectory per appended repetition. *)
Theorem get_full_kspace_prefix reps1 reps2 :
  reps1 ≠ [] → forallb Repetition_ok (reps1 ++ reps2) = true →
  ∃ t1 t2,
    Sequence_get_full_kspace reps1 = Ok t1
    ∧ Sequence_get_full_kspace (reps1 ++ reps2) = Ok (t1 ++ t2)
    ∧ length t2 = length reps2.
Proof.
  intros Hne Hok. pose proof (forallb_Forall_ok _ Hok) as Hall.
  apply forallb_ok_app in Hok as [Hok1 Hok2].
  eexists _, _. split; [by apply get_full_kspace_nonempty|]. split.
  - rewrite get_full_kspace_nonempty; [|by destruct reps1 | done].
    by rewrite reference_kspace_app.
  - apply (Forall2_length _ _ _ (reference_kspace_lengths reps2 _ _)).
Qed.

(** X10: the trajectory of a repetition that follows others starts from
    the last row [p] of the trajectory before it when its pulse is UNDEF,
    FATSAT or STORE, from [-p] when its pulse is REFOC, and from the origin
    when its pulse is EXCIT and no pulse before it is STORE. *)
Theorem next_repetition_start reps rep :
  reps ≠ [] → forallb Repetition_ok (reps ++ [rep]) = true →
  ∃ ts t_prev p t,
    Sequence_get_full_kspace reps = Ok ts
    ∧ last ts = Some t_prev ∧ last t_prev = Some p
    ∧ Sequence_get_full_kspace (reps ++ [rep]) = Ok (ts ++ [t])
    ∧ match usage (pulse rep) with
      | REFOC => t = rep_trajectory (vneg p) rep
      | UNDEF | FATSAT | STORE => t = rep_trajectory p rep
      | EXCIT =>
          Forall (λ r, usage (pulse r) ≠ STORE) reps →
          t = rep_trajectory vzero rep
      end.
Proof.
  intros Hne Hok. pose proof (forallb_Forall_ok _ Hok) as Hall.
  apply forallb_ok_app in Hok as [Hok1 Hok2].
  destruct (carried_position_last vzero vzero reps Hne Hok1)
    as (t_prev & p & Hlast & Hp & Hk).
  exists (reference_kspace vzero vzero reps), t_prev, p.
  pose proof (carried_stored_no_store vzero vzero reps) as Hs.
  destruct (carried_state vzero vzero reps) as [k s] eqn:Hcs.
  cbn [fst snd] in Hk, Hs. subst k.
  exists (rep_trajectory (pulse_adjust (usage (pulse rep)) p s).1 rep).
  split; [by apply get_full_kspace_nonempty|].
  split; [done|]. split; [done|]. split.
  - rewrite get_full_kspace_nonempty; [|by destruct reps | done].
    rewrite reference_kspace_app, Hcs. cbn [fst snd reference_kspace].
    by destruct (pulse_adjust (usage (pulse rep)) p s) as [k' s'].
  - destruct (usage (pulse rep)); cbn [pulse_adjust fst]; try done.
    intros Hns. by rewrite (Hs Hns).
Qed.

(** X11: an EXCIT repetition resumes from the position at the most recent
    STORE pulse: when [st] is the last STORE repetition before the EXCIT
    repetition [rep], the trajectory of [rep] starts from the last row of
    the trajectory that precedes [st]. *)
Theorem excit_resumes_from_store pre st mid rep :
  pre ≠ [] → forallb Repetition_ok (pre ++ st :: mid ++ [rep]) = true →
  usage (pulse st) = STORE →
  forallb (λ r, bool_decide (usage (pulse r) ≠ STORE)) mid = true →
  usage (pulse rep) = EXCIT →
  ∃ ts_pre t_prev p ts,
    Sequence_get_full_kspace pre = Ok ts_pre
    ∧ last ts_pre = Some t_prev ∧ last t_prev = Some p
    ∧ Sequence_get_full_kspace (pre ++ st :: mid ++ [rep]) =
        Ok (ts ++ [rep_trajectory p rep])
    ∧ length ts = length (pre ++ st :: mid).
Proof.
  intros Hne Hok Hst Hmid Hrep.
  pose proof (forallb_Forall_ok _ Hok) as Hall.
  apply forallb_ok_app in Hok as [Hok1 _].
  assert (Hns : Forall (λ r, usage (pulse r) ≠ STORE) mid).
  { rewrite forallb_forall in Hmid. rewrite Forall_forall. intros r Hr.
    apply list_elem_of_In in Hr. specialize (Hmid r Hr).
    by apply bool_decide_eq_true in Hmid. }
  destruct (carried_position_last vzero vzero pre Hne Hok1)
    as (t_prev & p & Hlast & Hp & Hk).
  exists (reference_kspace vzero vzero pre), t_prev, p,
    (reference_kspace vzero vzero (pre ++ st :: mid)).
  split; [by apply get_full_kspace_nonempty|].
  split; [done|]. split; [done|]. split.
  - rewrite get_full_kspace_nonempty; [|by destruct pre | done].
    replace (pre ++ st :: mid ++ [rep]) with ((pre ++ st :: mid) ++ [rep])
      by (by rewrite <- app_assoc).
    rewrite reference_kspace_app. f_equal.
    cbn [reference_kspace]. rewrite Hrep. cbn [pulse_adjust]. f_equal. f_equal.
    rewrite carried_state_app.
    destruct (carried_state vzero vzero pre) as [k s]. cbn [fst snd] in *.
    subst k. cbn [carried_state]. rewrite Hst. cbn [pulse_adjust].
    by rewrite carried_stored_no_store.
  - apply (Forall2_length _ _ _ (reference_kspace_lengths _ _ _)).
Qed.

End CarriedStateProofs.

(** ** Measured samples of a prefix *)

Section MeasuredPrefix.
Context {F : Type} {ops : FloatOps F} {dt : IntDtype}.

Implicit Types (rep : Repetition F) (reps : list (Repetition F)).

(** X12: repetitions appended to a sequence only append rows to
    [get_kspace()]: the rows of [reps1] come first and are followed by one
    row per measured event of the appended repetitions; appending
    repetitions that measure nothing leaves the result as it was. *)
Theorem get_kspace_prefix reps1 reps2 :
  reps1 ≠ [] → forallb Repetition_ok (reps1 ++ reps2) = true →
  ∃ rows1 rows2,
    Sequence_get_kspace reps1 = Ok rows1
    ∧ Sequence_get_kspace (reps1 ++ reps2) = Ok (rows1 ++ rows2)
    ∧ length rows2 = measured_count reps2.
Proof.
  intros Hne Hok. pose proof (forallb_Forall_ok _ Hok) as Hall.
  apply forallb_ok_app in Hok as [Hok1 Hok2].
  eexists _, _. split; [by apply get_kspace_nonempty|]. split.
  - rewrite get_kspace_nonempty; [|by destruct reps1 | done].
    rewrite reference_kspace_app, zip_with_app, concat_app; [done|].
    apply (Forall2_length _ _ _ (reference_kspace_lengths reps1 _ _)).
  - apply length_concat_measured; [apply reference_kspace_lengths | done].
Qed.

End MeasuredPrefix.

(** ** Shifting and cloning in the store *)

Section StoreExtras.
Context {F : Type} {ops : FloatOps F} {dt : IntDtype}.

Implicit Types (h : Store F) (r : loc) (rep : Repetition F).
Implicit Types (refs temp : list loc) (sequences : list (list loc)).

Lemma object_value_shift_iter (offset : Z) (n : nat) (o : Object F)
    (u : Tensor Z) :
  object_value o (Nat.iter n (tensor_shift offset) u) =
    Nat.iter n (Repetition_shift_contrasts offset) (object_value o u).
Proof.
  induction n as [|n IH]; [done|]. simpl. by rewrite object_value_shift, IH.
Qed.

(** X13: [Sequence.shift_contrasts], with an offset of the integer type of
    the tags, writes into the [adc_usage] tensor of the object behind every
    entry of the list: a tensor is shifted once for
    each entry of the sequence whose object refers to it, so an object that
    the sequence holds [n] times is shifted [n] times, and so is every other
    object that refers to the same tensor, in the sequence or not; objects
    with a tensor that no entry refers to are left alone. *)
Theorem shift_contrasts_counts_uses (offset : Z) refs h :
  in_range offset →
  Forall (λ r, is_Some (h !! r)) refs →
  ∃ h',
    Sequence_shift_contrasts offset refs h = Ok ((), h')
    ∧ objects h' = objects h
    ∧ (∀ t, tensors h' !! t =
            Nat.iter (tensor_uses h t refs) (tensor_shift offset)
              <$> tensors h !! t)
    ∧ ∀ r rep t,
        h !! r = Some rep → tensor_of h r = Some t →
        h' !! r =
          Some (Nat.iter (tensor_uses h t refs)
                  (Repetition_shift_contrasts offset) rep).
Proof.
  intros _ Hall.
  destruct (Sequence_shift_contrasts_spec offset refs h Hall)
    as (h' & Hshift & Hobj & Hten).
  exists h'. split; [done|]. split; [done|]. split; [done|].
  intros r rep t Hr Ht.
  apply lookup_store_Some in Hr as (o & u & Ho & Hu & ->).
  unfold tensor_of in Ht. rewrite Ho in Ht. injection Ht as <-.
  apply lookup_store_Some.
  exists o, (Nat.iter (tensor_uses h (o_adc_usage o) refs) (tensor_shift offset) u).
  split; [by rewrite Hobj|]. split; [by rewrite Hten, Hu|].
  by rewrite object_value_shift_iter.
Qed.

(** X14: shifting the contrasts of a clone leaves the original sequence as
    it was: the clone consists of new objects that end up shifted, while
    every object that existed before, those of the original included, keeps
    its value. *)
Theorem clone_then_shift_keeps_original (offset : Z) refs h :
  chain_args_ok h [refs] = true →
  ∃ temp h1 h2,
    Sequence_clone refs h = Ok (temp, h1)
    ∧ Sequence_shift_contrasts offset temp h1 = Ok ((), h2)
    ∧ length temp = length refs
    ∧ (∀ r, r ∈ temp → h !! r = None)
    ∧ values h2 temp = Repetition_shift_contrasts offset <$> values h refs
    ∧ values h2 refs = values h refs
    ∧ ∀ r rep, h !! r = Some rep → h2 !! r = Some rep.
Proof.
  intros Hok. apply chain_args_ok_spec in Hok.
  rewrite Forall_singleton in Hok.
  destruct (clone_then_shift offset refs h Hok)
    as (temp & h1 & h2 & Hclone & Hshift & Hsub & Hnew & Hok2 & Hval).
  exists temp, h1, h2. repeat split; try done.
  - apply (f_equal length) in Hval.
    by rewrite length_fmap, (length_values _ _ Hok2), (length_values _ _ Hok)
      in Hval.
  - by apply values_weaken.
  - intros r rep. by apply lookup_store_weaken.
Qed.

End StoreExtras.

(** ** [chain] with [oneshot], and [new_rep] *)

Section OneshotProofs.
Context {F : Type} {ops : FloatOps F} {dt : IntDtype}.

Implicit Types (h : Store F) (r : loc) (rep : Repetition F).
Implicit Types (refs temp combined : list loc) (sequences : list (list loc)).

Lemma sequences_built_spec h sequences :
  sequences_built h sequences = true ↔ Forall (Forall (built h)) sequences.
Proof.
  unfold sequences_built. rewrite forallb_forall, Forall_forall.
  setoid_rewrite <- list_elem_of_In.
  apply forall_proper; intros s. apply forall_proper; intros _.
  rewrite forallb_forall, Forall_forall.
  setoid_rewrite <- list_elem_of_In.
  apply forall_proper; intros r. apply forall_proper; intros _.
  unfold built. destruct (h !! r) as [rep|].
  - split; [eauto|]. by intros (? & [= <-] & ?).
  - split; [done|]. by intros (? & [=] & _).
Qed.

Lemma built_weaken h h' r : store_le h h' → built h r → built h' r.
Proof.
  intros Hsub (rep & Hr & Hok). exists rep. split; [|done].
  by apply (lookup_store_weaken h h').
Qed.

Lemma object_ok_strengthen h h' r :
  store_le h h' → built h r → object_ok h' r → object_ok h r.
Proof.
  intros Hsub (rep & Hr & _) (rep' & Hr' & Hok).
  pose proof (lookup_store_weaken h h' r rep Hsub Hr) as Hr2.
  exists rep. split; [done|]. congruence.
Qed.

Lemma Repetition_shift_contrasts_0 rep : Repetition_shift_contrasts 0 rep = rep.
Proof.
  destruct rep as [p n et gm ap [d s us]].
  unfold Repetition_shift_contrasts. simpl. by rewrite masked_add_0.
Qed.

(** A pulse that holds a Python float makes [Sequence.clone] raise. *)
Lemma Sequence_clone_float refs h :
  Forall (built h) refs → ¬ Forall (object_ok h) refs →
  Sequence_clone refs h = Raise AttributeError.
Proof.
  revert h. induction refs as [|r refs IH]; intros h Hb Hno.
  - destruct Hno. constructor.
  - apply Forall_cons in Hb as [(rep & Hr & Hrep) Hb].
    cbn [Sequence_clone]. unfold py_bind, get_object at 1. rewrite Hr.
    destruct (Pulse_has_tensors (pulse rep)) eqn:Hp.
    + rewrite (Repetition_clone_ok _ Hrep Hp). unfold py_lift, new_object.
      set (r' := fresh (dom (objects h))). set (h1 := <[r' := rep]> h).
      assert (Hsub : store_le h h1).
      { apply store_le_insert. apply not_elem_of_dom. apply is_fresh. }
      rewrite IH; [done | |].
      * eapply Forall_impl; [exact Hb|]. intros ?. by apply built_weaken.
      * intros Hok1. apply Hno. constructor; [by exists rep|].
        rewrite Forall_forall in Hb, Hok1 |- *. intros l Hl.
        apply (object_ok_strengthen h h1); auto.
    + unfold Repetition_clone. destruct (pulse rep) as [u a ph s].
      unfold Pulse_has_tensors in Hp. unfold Pulse_clone. simpl in *.
      destruct a, ph; try discriminate; done.
Qed.

(** One turn of the loop of [chain] with [oneshot]. *)
Lemma chain_loop_oneshot_step refs sequences h combined (offset : Z) :
  Forall (object_ok h) refs →
  ∃ temp h2,
    chain_loop true (refs :: sequences) combined offset h =
      chain_loop true sequences (combined ++ temp) offset h2
    ∧ store_le h h2
    ∧ (∀ r, r ∈ temp → h !! r = None)
    ∧ Forall (object_ok h2) temp
    ∧ values h2 temp = Repetition_shift_contrasts offset <$> values h refs.
Proof.
  intros Hok.
  destruct (clone_then_shift offset refs h Hok)
    as (temp & h1 & h2 & Hclone & Hshift & Hsub & Hnew & Hok2 & Hval).
  exists temp, h2. split; [|done].
  cbn [chain_loop negb]. unfold py_bind at 1. rewrite Hclone.
  unfold py_bind at 1. rewrite Hshift. done.
Qed.

Lemma chain_loop_oneshot_spec sequences h combined :
  Forall (Forall (object_ok h)) sequences →
  ∃ new h',
    chain_loop true sequences combined 0 h = Ok (combined ++ new, h')
    ∧ store_le h h'
    ∧ (∀ r, r ∈ new → h !! r = None)
    ∧ Forall (object_ok h') new
    ∧ values h' new = concat (values h <$> sequences).
Proof.
  revert h combined.
  induction sequences as [|refs sequences IH]; intros h combined Hok.
  - exists [], h. rewrite app_nil_r. split; [done|].
    split; [apply store_le_refl|]. split; [by intros r [] %elem_of_nil|].
    by split.
  - apply Forall_cons in Hok as [Hrefs Hok].
    destruct (chain_loop_oneshot_step refs sequences h combined 0 Hrefs)
      as (temp & h2 & Hstep & Hsub2 & Hnew & Hok2 & Hval2).
    destruct (IH h2 (combined ++ temp))
      as (new & h' & Hloop & Hsub & Hnew' & Hok' & Hval').
    { by apply (sequences_ok_weaken h). }
    exists (temp ++ new), h'. split; [|split; [|split; [|split]]].
    + by rewrite Hstep, Hloop, app_assoc.
    + by apply (store_le_trans h h2 h').
    + intros l [Hl|Hl] %elem_of_app; [by apply Hnew|].
      apply Hnew' in Hl. by apply (lookup_store_weaken_None h h2).
    + apply Forall_app. split; [|done].
      eapply Forall_impl; [exact Hok2|]. intros l. by apply object_ok_weaken.
    + rewrite values_app, Hval', (values_weaken h2 h' temp Hsub Hok2), Hval2.
      rewrite (sequences_values_weaken h h2) by done.
      rewrite fmap_cons. cbn [concat]. f_equal.
      rewrite <- (list_fmap_id (values h refs)) at 2.
      apply list_fmap_ext. intros _ rep _. apply Repetition_shift_contrasts_0.
Qed.

Lemma chain_loop_oneshot_float sequences h combined (offset : Z) :
  Forall (Forall (built h)) sequences →
  ¬ Forall (Forall (object_ok h)) sequences →
  chain_loop true sequences combined offset h = Raise AttributeError.
Proof.
  revert h combined.
  induction sequences as [|refs sequences IH]; intros h combined Hb Hno.
  - destruct Hno. constructor.
  - apply Forall_cons in Hb as [Hrefs Hb].
    destruct (chain_args_ok h [refs]) eqn:Hok.
    + apply chain_args_ok_spec in Hok. rewrite Forall_singleton in Hok.
      destruct (chain_loop_oneshot_step refs sequences h combined offset Hok)
        as (temp & h2 & -> & Hsub2 & _).
      apply IH.
      * eapply Forall_impl; [exact Hb|]. intros s Hs.
        eapply Forall_impl; [exact Hs|]. intros r. by apply built_weaken.
      * intros Hok2. apply Hno. constructor; [done|].
        rewrite Forall_forall in Hb, Hok2 |- *. intros s Hs.
        specialize (Hb s Hs). specialize (Hok2 s Hs).
        rewrite Forall_forall in Hb, Hok2 |- *. intros r Hr.
        apply (object_ok_strengthen h h2); auto.
    + cbn [chain_loop]. unfold py_bind at 1.
      rewrite Sequence_clone_float; [done | done |].
      intros Hok'. assert (chain_args_ok h [refs] = true); [|congruence].
      apply chain_args_ok_spec. by rewrite Forall_singleton.
Qed.

(** X15: [chain] with [oneshot=True], on repetitions as [__init__] returns
    them, returns new objects that hold the arguments' repetitions in call
    order with their tags unchanged, leaves every existing object as it
    was, and accepts arguments without repetitions; it raises
    AttributeError when the angle or the phase of some pulse is a Python
    float. *)
Theorem chain_oneshot_cases h sequences :
  sequences_built h sequences = true →
  if chain_args_ok h sequences
  then ∃ combined h',
         chain true sequences h = Ok (combined, h')
         ∧ values h' combined = concat (values h <$> sequences)
         ∧ (∀ r, r ∈ combined → h !! r = None)
         ∧ (∀ r rep, h !! r = Some rep → h' !! r = Some rep)
  else chain true sequences h = Raise AttributeError.
Proof.
  intros Hb. apply sequences_built_spec in Hb.
  destruct (chain_args_ok h sequences) eqn:Hok.
  - apply chain_args_ok_spec in Hok.
    destruct (chain_loop_oneshot_spec sequences h [] Hok)
      as (combined & h' & Hchain & Hsub & Hnew & _ & Hval).
    exists combined, h'. repeat split; try done.
    intros r rep Hr. by apply (lookup_store_weaken h h').
  - apply chain_loop_oneshot_float; [done|].
    intros Hok'. apply chain_args_ok_spec in Hok'. congruence.
Qed.

End OneshotProofs.

Section NewRepProofs.
Context {F : Type} {ops : FloatOps F} {cast : FloatCast F} {dt : IntDtype}.

Implicit Types (h : Store F) (self : list loc).

(** X16: [Sequence.new_rep(n)] with [n ≥ 1] appends one new object at the
    end of the sequence and returns it; the object is the repetition
    [Repetition.zero(n)] and no other object changes.  With [n = 0] the
    call raises ValueError and with [n < 0] RuntimeError, before anything
    is appended. *)
Theorem new_rep_appends (n : Z) self h :
  match Sequence_new_rep n self h with
  | Ok (r, self', h') =>
      1 ≤ n
      ∧ self' = self ++ [r]
      ∧ h !! r = None
      ∧ (∃ rep, Repetition_zero n = Ok rep ∧ h' !! r = Some rep)
      ∧ (∀ r0 rep0, h !! r0 = Some rep0 → h' !! r0 = Some rep0)
  | Raise e => (n = 0 ∧ e = ValueError) ∨ (n < 0 ∧ e = RuntimeError)
  end.
Proof.
  unfold Sequence_new_rep, py_bind, py_lift.
  destruct (Repetition_zero_outcome (F:=F) n)
    as [(Hn & rep & ->)|[(Hn & ->)|(Hn & ->)]]; [|by left | by right].
  unfold new_object, py_ret.
  assert (Hfresh : objects h !! fresh (dom (objects h)) = None).
  { apply not_elem_of_dom. apply is_fresh. }
  repeat split; try done.
  - by apply lookup_store_None.
  - exists rep. split; [done|]. apply lookup_store_insert.
  - intros r0 rep0. apply lookup_store_weaken. by apply store_le_insert.
Qed.

End NewRepProofs.

(** ** Sequences with the same events *)

Section SameEvents.
Context {F : Type} {ops : FloatOps F} {cast : FloatCast F} {dt : IntDtype}.

Implicit Types (h : Store F) (rep : Repetition F).
Implicit Types (reps self : list (Repetition F)) (sequences : list (list loc)).

Lemma kspace_body_same rep rep'
    (vars : Vec4 F * Vec4 F * list (list (Vec4 F))) :
  same_events rep rep' → kspace_body vars rep = kspace_body vars rep'.
Proof.
  intros (Hu & Hg & Ht & _). destruct vars as [[k s] t].
  unfold kspace_body. by rewrite Hu, Hg, Ht.
Qed.

(** The trajectory and the measured samples only depend on the pulse
    usages, the durations, the gradient moments and on which events are
    measured. *)
Lemma kspace_same_events reps reps' :
  Forall2 same_events reps reps' →
  Sequence_get_full_kspace reps = Sequence_get_full_kspace reps'
  ∧ Sequence_get_kspace reps = Sequence_get_kspace reps'.
Proof.
  intros Hsame.
  assert (Hloop : ∀ vars, for_each kspace_body reps vars =
                          for_each kspace_body reps' vars).
  { induction Hsame as [|rep rep' reps reps' Hrep _ IH]; intros vars; [done|].
    cbn [for_each]. rewrite (kspace_body_same _ _ _ Hrep).
    destruct (kspace_body vars rep') as [vars'|e]; [|done]. apply IH. }
  assert (Hfull : Sequence_get_full_kspace reps = Sequence_get_full_kspace reps').
  { unfold Sequence_get_full_kspace. rewrite Hloop. by destruct Hsame. }
  split; [done|]. unfold Sequence_get_kspace. rewrite Hfull.
  destruct (Sequence_get_full_kspace reps') as [full|e]; [|done].
  cbn [exc_bind]. f_equal. clear Hloop Hfull. revert full.
  induction Hsame as [|rep rep' reps reps' Hrep _ IH]; intros [|t full]; try done.
  cbn [zip zip_with exc_map fst snd].
  destruct Hrep as (_ & _ & _ & ->).
  destruct (index_mask _ _) as [part|e]; [|done]. cbn [exc_bind].
  fold (zip full reps). fold (zip full reps'). by rewrite IH.
Qed.

Lemma same_events_shifted (offset : Z) rep :
  0 ≤ offset → shift_fits offset [rep] = true →
  same_events (Repetition_shift_contrasts offset rep) rep.
Proof.
  intros Hoff Hfit. repeat split.
  rewrite shift_contrasts_usage. apply positive_mask_shifted; [done|].
  by apply usage_fits.
Qed.

Lemma shift_fits_elem (offset : Z) rep reps :
  shift_fits offset reps = true → rep ∈ reps → shift_fits offset [rep] = true.
Proof.
  intros Hfit Hrep. apply shift_fits_spec. intros x Hx.
  apply (proj1 (shift_fits_spec offset reps) Hfit).
  apply elem_of_tags in Hx as (rep' & Hx & Hrep').
  apply list_elem_of_singleton in Hrep' as ->.
  apply elem_of_tags. by exists rep.
Qed.

Lemma Sequence_cpu_Ok self :
  Forall (λ rep, Repetition_ok rep = true) self →
  Sequence_cpu self =
    Ok ((λ rep, mkRepetition (Pulse_cpu (pulse rep)) (event_count rep)
                  (tensor_cpu (event_time rep)) (tensor_cpu (gradm rep))
                  (tensor_cpu (adc_phase rep)) (tensor_cpu (adc_usage rep)))
          <$> self).
Proof.
  unfold Sequence_cpu. induction 1 as [|rep reps Hrep _ IH]; [done|].
  cbn [exc_map]. by rewrite (Repetition_cpu_Ok _ Hrep), IH.
Qed.

(** X17: [Sequence.cpu] of repetitions as [__init__] returns them gives as
    many repetitions, all on the CPU and with pulses that hold tensors, and
    the copy has the same full trajectory, the same measured samples and
    the same contrasts as the original. *)
Theorem Sequence_cpu_same_kspace self :
  forallb Repetition_ok self = true →
  ∃ self',
    Sequence_cpu self = Ok self'
    ∧ length self' = length self
    ∧ Forall (λ rep, Repetition_device rep = CPU
                     ∧ Pulse_has_tensors (pulse rep) = true) self'
    ∧ Sequence_get_full_kspace self' = Sequence_get_full_kspace self
    ∧ Sequence_get_kspace self' = Sequence_get_kspace self
    ∧ Sequence_get_contrasts self' = Sequence_get_contrasts self.
Proof.
  intros Hok. apply forallb_Forall_ok in Hok.
  eexists. split; [by apply Sequence_cpu_Ok|].
  split; [by rewrite length_fmap|]. split.
  { apply Forall_fmap. by apply Forall_true. }
  assert (Hsame : Forall2 same_events
    ((λ rep, mkRepetition (Pulse_cpu (pulse rep)) (event_count rep)
               (tensor_cpu (event_time rep)) (tensor_cpu (gradm rep))
               (tensor_cpu (adc_phase rep)) (tensor_cpu (adc_usage rep)))
       <$> self) self).
  { apply Forall2_fmap_l. apply Forall_Forall2_diag.
    apply Forall_true. intros rep. by repeat split. }
  destruct (kspace_same_events _ _ Hsame) as [Hfull Hk].
  split; [done|]. split; [done|].
  unfold Sequence_get_contrasts. f_equal. f_equal.
  clear. induction self as [|rep reps IH]; [done|].
  rewrite fmap_cons. cbn [mbind list_bind]. by rewrite IH.
Qed.

Lemma tags_nonnegative_shifted (offset : Z) reps :
  0 ≤ offset → shift_fits offset reps = true →
  Forall (λ u, 0 ≤ u) (tags reps) →
  Forall (λ u, 0 ≤ u) (tags (Repetition_shift_contrasts offset <$> reps)).
Proof.
  intros Hoff Hfit Hnn. rewrite tags_shifted_fits by done.
  apply Forall_fmap. eapply Forall_impl; [exact Hnn|].
  intros u Hu. unfold compose. simpl in Hu. case_bool_decide; lia.
Qed.

Lemma max_of_nonnegative (us : list Z) :
  Forall (λ u, 0 ≤ u) us → 0 ≤ max_of us.
Proof.
  intros Hnn. destruct us as [|u us]; [done|].
  destruct (max_of_spec (u :: us)) as [Hin _]; [done|].
  rewrite Forall_forall in Hnn. by apply Hnn.
Qed.

(** Without negative tags and without overflow every offset of [chain] is
    non-negative, so each block has the events of the argument it comes
    from. *)
Lemma chain_blocks_same_events (seqs : list (list (Repetition F))) (offset : Z) :
  0 ≤ offset → chain_fits offset seqs = true →
  Forall (λ s, Forall (λ u, 0 ≤ u) (tags s)) seqs →
  Forall2 same_events (concat (chain_blocks offset seqs)) (concat seqs).
Proof.
  intros Hoff Hfit Hnn. revert offset Hoff Hfit.
  induction Hnn as [|s seqs Hs _ IH]; intros offset Hoff Hfit; [constructor|].
  cbn [chain_fits] in Hfit. apply andb_true_iff in Hfit as [Hfit Hfits].
  cbn [chain_blocks concat]. apply Forall2_app.
  - apply Forall2_fmap_l. apply Forall_Forall2_diag. apply Forall_forall.
    intros rep Hrep. apply same_events_shifted; [done|].
    by apply (shift_fits_elem offset rep s).
  - apply IH; [|done].
    apply max_of_nonnegative. by apply tags_nonnegative_shifted.
Qed.

(** X18: when no argument has a negative tag, every argument has a
    repetition and no shift takes a positive tag past the largest value of
    the integer type, [chain] without [oneshot] changes neither the
    trajectory nor the measured samples: the combined sequence has the full
    trajectory and the measured samples of the arguments' repetitions put
    one after the other. *)
Theorem chain_keeps_kspace h sequences :
  chain_args_ok h sequences = true → [] ∉ sequences →
  forallb (λ s, forallb (λ u, bool_decide (0 ≤ u)) (tags (values h s))) sequences
    = true →
  chain_fits 0 (values h <$> sequences) = true →
  ∃ combined h',
    chain false sequences h = Ok (combined, h')
    ∧ Sequence_get_full_kspace (values h' combined) =
        Sequence_get_full_kspace (concat (values h <$> sequences))
    ∧ Sequence_get_kspace (values h' combined) =
        Sequence_get_kspace (concat (values h <$> sequences)).
Proof.
  intros Hok Hne Hnn Hfit. apply chain_args_ok_spec in Hok.
  destruct (chain_loop_spec sequences h [] 0 Hok Hne)
    as (combined & h' & Hchain & _ & _ & _ & Hval).
  exists combined, h'. split; [exact Hchain|]. rewrite Hval.
  apply kspace_same_events, chain_blocks_same_events; [done | done |].
  apply Forall_fmap, Forall_forall. rewrite forallb_forall in Hnn.
  intros s Hs. apply list_elem_of_In in Hs. specialize (Hnn s Hs).
  rewrite forallb_forall in Hnn. unfold compose. apply Forall_forall.
  intros u Hu. apply list_elem_of_In in Hu. specialize (Hnn u Hu).
  by apply bool_decide_eq_true in Hnn.
Qed.

End SameEvents.

(** ** [cpu] on the objects of a sequence *)

Section CpuObjects.
Context {F : Type} {ops : FloatOps F} {cast : FloatCast F} {dt : IntDtype}.

Implicit Types (h : Store F) (r t : loc) (rep : Repetition F).
Implicit Types (refs copy : list loc).

Lemma tensor_cpu_id {A : Type} (u : Tensor A) : device u = CPU → tensor_cpu u = u.
Proof. destruct u as [d sh x]. simpl. by intros ->. Qed.

Lemma on_cpu_spec h refs : on_cpu h refs = true ↔ Forall (cpu_built h) refs.
Proof.
  unfold on_cpu. rewrite forallb_forall, Forall_forall.
  setoid_rewrite <- list_elem_of_In.
  apply forall_proper; intros r. apply forall_proper; intros _.
  unfold cpu_built. destruct (h !! r) as [rep|].
  - rewrite andb_true_iff. split.
    + intros [Hok Hdev]. exists rep. split; [done|]. split; [done|].
      by destruct (device (adc_usage rep)).
    + intros (? & [= <-] & Hok & ->). done.
  - split; [done|]. by intros (? & [=] & _).
Qed.

Lemma cpu_built_weaken h h' r : store_le h h' → cpu_built h r → cpu_built h' r.
Proof.
  intros Hsub (rep & Hr & Hok). exists rep. split; [|done].
  by apply (lookup_store_weaken h h').
Qed.

Lemma tensor_uses_fmap h t refs :
  tensor_uses h t refs =
    length (filter (λ x, x = Some t) (tensor_of h <$> refs)).
Proof.
  unfold tensor_uses. induction refs as [|r refs IH]; [done|].
  rewrite fmap_cons, !filter_cons.
  destruct (decide (tensor_of h r = Some t)); simpl; by rewrite IH.
Qed.

(** [Sequence.cpu] of repetitions on the CPU allocates one new object per
    repetition and no tensor: each new object refers to the [adc_usage]
    tensor of the repetition it was made from. *)
Lemma Sequence_cpu_objects_spec refs h :
  Forall (cpu_built h) refs →
  ∃ copy h1,
    Sequence_cpu_objects refs h = Ok (copy, h1)
    ∧ store_le h h1
    ∧ tensors h1 = tensors h
    ∧ (∀ r, r ∈ copy → h !! r = None)
    ∧ Sequence_cpu (values h refs) = Ok (values h1 copy)
    ∧ length copy = length refs
    ∧ Forall (λ r, is_Some (h1 !! r)) copy
    ∧ tensor_of h1 <$> copy = tensor_of h <$> refs.
Proof.
  intros Hok. revert h Hok.
  induction refs as [|r refs IH]; intros h Hok.
  - exists [], h. split; [done|]. split; [apply store_le_refl|].
    split; [done|]. split; [by intros r [] %elem_of_nil|]. by repeat split.
  - apply Forall_cons in Hok as [(rep & Hr & Hrep & Hdev) Hrefs].
    pose proof Hr as Hr0.
    apply lookup_store_Some in Hr0 as (o & u & Ho & Hu & Heq).
    assert (Hau : adc_usage rep = u) by (by rewrite Heq).
    rewrite Hau in Hdev.
    pose proof (Repetition_cpu_Ok rep Hrep) as Hcpu.
    set (rep' := mkRepetition (Pulse_cpu (pulse rep)) (event_count rep)
                   (tensor_cpu (event_time rep)) (tensor_cpu (gradm rep))
                   (tensor_cpu (adc_phase rep)) (tensor_cpu (adc_usage rep)))
      in Hcpu.
    set (r0 := fresh (dom (objects h))).
    set (h1 := mkStore (<[r0 := object_of rep' (o_adc_usage o)]> (objects h))
                 (tensors h)).
    assert (Hfresh : objects h !! r0 = None).
    { apply not_elem_of_dom. apply is_fresh. }
    assert (Hsub1 : store_le h h1).
    { split; [|done]. simpl. by apply insert_subseteq. }
    assert (Hr1 : h1 !! r0 = Some rep').
    { apply lookup_store_Some. exists (object_of rep' (o_adc_usage o)), u.
      split; [apply lookup_insert_eq|]. split; [done|].
      rewrite <- (object_value_of rep' (o_adc_usage o)) at 1. f_equal.
      simpl. rewrite Hau. by apply tensor_cpu_id. }
    destruct (IH h1)
      as (copy & h' & Hrun & Hsub & Hten & Hnew & Hval & Hlen & Hsome & Hof).
    { eapply Forall_impl; [exact Hrefs|]. intros ?. by apply cpu_built_weaken. }
    assert (Hr' : h' !! r0 = Some rep') by (by apply (lookup_store_weaken h1 h')).
    exists (r0 :: copy), h'.
    split; [|split; [|split; [|split; [|split; [|split; [|split]]]]]].
    + cbn [Sequence_cpu_objects]. unfold py_bind, Repetition_cpu_object at 1.
      rewrite Ho, Hu, <- Heq, Hcpu. cbn [exc_bind]. rewrite Hdev.
      fold r0. fold h1. by rewrite Hrun.
    + by apply (store_le_trans h h1 h').
    + by rewrite Hten.
    + intros l [->|Hl] %elem_of_cons; [by apply lookup_store_None|].
      apply Hnew in Hl. by apply (lookup_store_weaken_None h h1).
    + rewrite (values_cons _ _ _ _ Hr), (values_cons _ _ _ _ Hr').
      unfold Sequence_cpu in *. cbn [exc_map]. rewrite Hcpu. cbn [exc_bind].
      assert (Hsame : values h1 refs = values h refs).
      { apply values_agree. intros l Hl. rewrite Forall_forall in Hrefs.
        destruct (Hrefs l Hl) as (rep1 & Hl1 & _). rewrite Hl1.
        by apply (lookup_store_weaken h h1). }
      by rewrite <- Hsame, Hval.
    + simpl. by rewrite Hlen.
    + constructor; [by exists rep' | done].
    + rewrite !fmap_cons. f_equal.
      * unfold tensor_of. rewrite Ho. destruct Hsub as [Hsubo _].
        assert (Ho1 : objects h1 !! r0 = Some (object_of rep' (o_adc_usage o)))
          by apply lookup_insert_eq.
        by rewrite (lookup_weaken _ _ _ _ Ho1 Hsubo).
      * rewrite Hof. apply list_fmap_ext. intros i l Hl.
        apply list_elem_of_lookup_2 in Hl. rewrite Forall_forall in Hrefs.
        destruct (Hrefs l Hl) as (rep1 & Hl1 & _).
        apply lookup_store_Some in Hl1 as (o1 & u1 & Ho1 & _).
        destruct Hsub1 as [Hsubo _]. unfold tensor_of.
        by rewrite Ho1, (lookup_weaken _ _ _ _ Ho1 Hsubo).
Qed.

(** X22: [Sequence.cpu] of a sequence that is on the CPU is not a copy of
    its tags: the call returns as many new objects as the sequence has
    entries, with the values [Repetition.cpu] gives, and changes no object,
    but each new object refers to the [adc_usage] tensor of the repetition
    it was made from; [shift_contrasts] on the returned sequence therefore
    shifts the repetitions of the original, each once for every entry of
    the original that refers to its tensor. *)
Theorem cpu_copy_shares_adc_usage (offset : Z) refs h :
  in_range offset → on_cpu h refs = true →
  ∃ copy h1 h2,
    Sequence_cpu_objects refs h = Ok (copy, h1)
    ∧ length copy = length refs
    ∧ (∀ r, r ∈ copy → h !! r = None)
    ∧ Sequence_cpu (values h refs) = Ok (values h1 copy)
    ∧ (∀ r rep, h !! r = Some rep → h1 !! r = Some rep)
    ∧ Sequence_shift_contrasts offset copy h1 = Ok ((), h2)
    ∧ ∀ r rep t,
        h !! r = Some rep → tensor_of h r = Some t →
        h2 !! r =
          Some (Nat.iter (tensor_uses h t refs)
                  (Repetition_shift_contrasts offset) rep).
Proof.
  intros _ Hok. apply on_cpu_spec in Hok.
  destruct (Sequence_cpu_objects_spec refs h Hok)
    as (copy & h1 & Hrun & Hsub & Hten & Hnew & Hval & Hlen & Hsome & Hof).
  destruct (Sequence_shift_contrasts_spec offset copy h1 Hsome)
    as (h2 & Hshift & Hobj & Hten2).
  exists copy, h1, h2. split; [done|]. split; [done|]. split; [done|].
  split; [done|]. split; [intros r rep; by apply lookup_store_weaken|].
  split; [done|]. intros r rep t Hr Ht.
  apply lookup_store_Some in Hr as (o & u & Ho & Hu & ->).
  unfold tensor_of in Ht. rewrite Ho in Ht. injection Ht as <-.
  apply lookup_store_Some.
  exists o, (Nat.iter (tensor_uses h (o_adc_usage o) refs) (tensor_shift offset) u).
  destruct Hsub as [Hsubo _].
  split; [rewrite Hobj; by apply (lookup_weaken (objects h))|].
  split; [|by rewrite object_value_shift_iter].
  rewrite Hten2, Hten, Hu. simpl. by rewrite !tensor_uses_fmap, Hof.
Qed.

End CpuObjects.

(** ** Instances of the theorems above *)

Lemma Repetition_clone_cases_witness :
  let rep := example_rep REFOC [2; 1] [0; 1; 0; 0; 0; 1] [1; 0] in
  Repetition_clone rep =
    if Pulse_has_tensors (pulse rep) then Ok rep else Raise AttributeError.
Proof.
  intros rep. apply (Repetition_clone_cases (F:=Z) rep). reflexivity.
Defined.

Lemma Repetition_cpu_clonable_witness :
  let rep := example_rep REFOC [2; 1] [0; 1; 0; 0; 0; 1] [1; 0] in
  ∃ rep',
    Repetition_cpu rep = Ok rep'
    ∧ Repetition_ok rep' = true
    ∧ event_count rep' = event_count rep
    ∧ data (event_time rep') = data (event_time rep)
    ∧ data (gradm rep') = data (gradm rep)
    ∧ data (adc_phase rep') = data (adc_phase rep)
    ∧ data (adc_usage rep') = data (adc_usage rep)
    ∧ usage (pulse rep') = usage (pulse rep)
    ∧ selective (pulse rep') = selective (pulse rep)
    ∧ Repetition_device rep' = CPU
    ∧ Repetition_clone rep' = Ok rep'.
Proof.
  intros rep. apply (Repetition_cpu_clonable (F:=Z) rep). reflexivity.
Defined.



Lemma contrast_mask_aligned_witness :
  let self := [example_rep EXCIT [1; 1] [1; 0; 0; 1; 0; 0] [0; 1];
               example_rep REFOC [2] [0; 1; 0] [2]] in
  ∃ mask rows,
    Sequence_get_contrast_mask 2 self = Ok mask
    ∧ Sequence_get_kspace self = Ok rows
    ∧ length mask = length rows
    ∧ mask = (λ u, bool_decide (u = 2)) <$> positive_tags self.
Proof.
  intros self.
  apply (contrast_mask_aligned (F:=Z) 2 self); [discriminate | reflexivity..].
Defined.

Lemma get_kspace_nothing_measured_witness :
  Sequence_get_kspace
    [example_rep EXCIT [1; 1] [1; 0; 0; 1; 0; 0] [0; -1];
     example_rep REFOC [2] [0; 1; 0] [0]] = Ok [].
Proof.
  apply (get_kspace_nothing_measured (F:=Z)); [discriminate | reflexivity..].
Defined.

Lemma get_full_kspace_prefix_witness :
  let reps1 := [example_rep EXCIT [1; 1] [1; 0; 0; 1; 0; 0] [0; 1]] in
  let reps2 := [example_rep REFOC [2] [0; 1; 0] [2]] in
  ∃ t1 t2,
    Sequence_get_full_kspace reps1 = Ok t1
    ∧ Sequence_get_full_kspace (reps1 ++ reps2) = Ok (t1 ++ t2)
    ∧ length t2 = length reps2.
Proof.
  intros reps1 reps2.
  apply (get_full_kspace_prefix (F:=Z) reps1 reps2); [discriminate | reflexivity].
Defined.

Lemma next_repetition_start_witness :
  let reps := [example_rep EXCIT [1; 1] [1; 0; 0; 1; 0; 0] [0; 1]] in
  let rep := example_rep REFOC [2] [0; 1; 0] [2] in
  ∃ ts t_prev p t,
    Sequence_get_full_kspace reps = Ok ts
    ∧ last ts = Some t_prev ∧ last t_prev = Some p
    ∧ Sequence_get_full_kspace (reps ++ [rep]) = Ok (ts ++ [t])
    ∧ match usage (pulse rep) with
      | REFOC => t = rep_trajectory (vneg p) rep
      | UNDEF | FATSAT | STORE => t = rep_trajectory p rep
      | EXCIT =>
          Forall (λ r, usage (pulse r) ≠ STORE) reps →
          t = rep_trajectory vzero rep
      end.
Proof.
  intros reps rep.
  apply (next_repetition_start (F:=Z) reps rep); [discriminate | reflexivity].
Defined.

Lemma excit_resumes_from_store_witness :
  let pre := [example_rep EXCIT [1] [1; 0; 0] [1]] in
  let st := example_rep STORE [1] [0; 2; 0] [1] in
  let mid := [example_rep REFOC [1] [0; 0; 1] [0]] in
  let rep := example_rep EXCIT [1] [0; 0; 0] [1] in
  ∃ ts_pre t_prev p ts,
    Sequence_get_full_kspace pre = Ok ts_pre
    ∧ last ts_pre = Some t_prev ∧ last t_prev = Some p
    ∧ Sequence_get_full_kspace (pre ++ st :: mid ++ [rep]) =
        Ok (ts ++ [rep_trajectory p rep])
    ∧ length ts = length (pre ++ st :: mid).
Proof.
  intros pre st mid rep.
  apply (excit_resumes_from_store (F:=Z) pre st mid rep);
    [discriminate | reflexivity..].
Defined.

Lemma get_kspace_prefix_witness :
  let reps1 := [example_rep EXCIT [1; 1] [1; 0; 0; 1; 0; 0] [0; 1]] in
  let reps2 := [example_rep REFOC [2] [0; 1; 0] [2]] in
  ∃ rows1 rows2,
    Sequence_get_kspace reps1 = Ok rows1
    ∧ Sequence_get_kspace (reps1 ++ reps2) = Ok (rows1 ++ rows2)
    ∧ length rows2 = measured_count reps2.
Proof.
  intros reps1 reps2.
  apply (get_kspace_prefix (F:=Z) reps1 reps2); [discriminate | reflexivity].
Defined.

(** The objects [1] and [3] refer to the same tensor: a sequence that
    holds the object [1] alone shifts the object [3] as well. *)
Lemma shift_contrasts_reaches_sharing_object :
  let h : Store Z :=
    sharing 3%positive 1%positive
      (<[1%positive := example_rep EXCIT [1] [0; 0; 0] [2]]> ∅) in
  tags (values h [3%positive]) = [2]
  ∧ match Sequence_shift_contrasts 3 [1%positive] h with
    | Ok (_, h') => tags (values h' [3%positive]) = [5]
    | Raise _ => False
    end.
Proof. vm_compute. by split. Qed.

Lemma shift_contrasts_counts_uses_witness :
  let h : Store Z :=
    sharing 3%positive 1%positive
      (<[1%positive := example_rep EXCIT [1] [0; 0; 0] [2]]>
         (<[2%positive := example_rep EXCIT [1] [0; 0; 0] [1]]> ∅)) in
  let refs := [1%positive; 2%positive; 1%positive] in
  ∃ h',
    Sequence_shift_contrasts 3 refs h = Ok ((), h')
    ∧ objects h' = objects h
    ∧ (∀ t, tensors h' !! t =
            Nat.iter (tensor_uses h t refs) (tensor_shift 3)
              <$> tensors h !! t)
    ∧ ∀ r rep t,
        h !! r = Some rep → tensor_of h r = Some t →
        h' !! r =
          Some (Nat.iter (tensor_uses h t refs)
                  (Repetition_shift_contrasts 3) rep).
Proof.
  intros h refs.
  apply (shift_contrasts_counts_uses (F:=Z) 3 refs h).
  - by vm_compute.
  - apply (bool_decide_unpack _). vm_compute. exact I.
Defined.

Lemma clone_then_shift_keeps_original_witness :
  let h : Store Z :=
    <[1%positive := example_rep EXCIT [1] [0; 0; 0] [2]]>
      (<[2%positive := example_rep EXCIT [1] [0; 0; 0] [1]]> ∅) in
  let refs := [1%positive; 2%positive; 1%positive] in
  ∃ temp h1 h2,
    Sequence_clone refs h = Ok (temp, h1)
    ∧ Sequence_shift_contrasts 3 temp h1 = Ok ((), h2)
    ∧ length temp = length refs
    ∧ (∀ r, r ∈ temp → h !! r = None)
    ∧ values h2 temp = Repetition_shift_contrasts 3 <$> values h refs
    ∧ values h2 refs = values h refs
    ∧ ∀ r rep, h !! r = Some rep → h2 !! r = Some rep.
Proof.
  intros h refs.
  apply (clone_then_shift_keeps_original (F:=Z) 3 refs h).
  vm_compute. reflexivity.
Defined.

Lemma chain_oneshot_cases_witness :
  let h : Store Z :=
    <[1%positive := example_rep EXCIT [1] [0; 0; 0] [2]]>
      (<[2%positive := example_rep EXCIT [1] [0; 0; 0] [2]]> ∅) in
  let sequences := [[1%positive]; []; [2%positive; 1%positive]] in
  if chain_args_ok h sequences
  then ∃ combined h',
         chain true sequences h = Ok (combined, h')
         ∧ values h' combined = concat (values h <$> sequences)
         ∧ (∀ r, r ∈ combined → h !! r = None)
         ∧ (∀ r rep, h !! r = Some rep → h' !! r = Some rep)
  else chain true sequences h = Raise AttributeError.
Proof.
  intros h sequences.
  apply (chain_oneshot_cases (F:=Z) h sequences).
  vm_compute. reflexivity.
Defined.

Lemma Sequence_cpu_same_kspace_witness :
  let self := [example_rep EXCIT [1; 1] [1; 0; 0; 1; 0; 0] [0; 1];
               example_rep REFOC [2] [0; 1; 0] [2]] in
  ∃ self',
    Sequence_cpu self = Ok self'
    ∧ length self' = length self
    ∧ Forall (λ rep, Repetition_device rep = CPU
                     ∧ Pulse_has_tensors (pulse rep) = true) self'
    ∧ Sequence_get_full_kspace self' = Sequence_get_full_kspace self
    ∧ Sequence_get_kspace self' = Sequence_get_kspace self
    ∧ Sequence_get_contrasts self' = Sequence_get_contrasts self.
Proof.
  intros self. apply (Sequence_cpu_same_kspace (F:=Z) self). reflexivity.
Defined.

Lemma chain_keeps_kspace_witness :
  let h : Store Z :=
    <[1%positive := example_rep EXCIT [1; 1] [1; 0; 0; 0; 1; 0] [1; 3]]>
      (<[2%positive := example_rep REFOC [1] [0; 0; 1] [2]]> ∅) in
  let sequences := [[1%positive]; [2%positive; 1%positive]] in
  ∃ combined h',
    chain false sequences h = Ok (combined, h')
    ∧ Sequence_get_full_kspace (values h' combined) =
        Sequence_get_full_kspace (concat (values h <$> sequences))
    ∧ Sequence_get_kspace (values h' combined) =
        Sequence_get_kspace (concat (values h <$> sequences)).
Proof.
  intros h sequences.
  apply (chain_keeps_kspace (F:=Z) h sequences).
  - vm_compute. reflexivity.
  - apply (bool_decide_unpack _). vm_compute. exact I.
  - vm_compute. reflexivity.
  - vm_compute. reflexivity.
Defined.

Lemma chain_appends_shifted_clones_witness :
  let h : Store Z :=
    <[1%positive := example_rep EXCIT [1; 1] [0; 0; 0; 0; 0; 0] [1; 3]]>
      (<[2%positive := example_rep EXCIT [1] [0; 0; 0] [2]]> ∅) in
  let sequences := [[1%positive]; [2%positive; 1%positive]] in
  ∃ combined h',
    chain false sequences h = Ok (combined, h')
    ∧ (∀ r rep, h !! r = Some rep → h' !! r = Some rep)
    ∧ (∀ r, r ∈ combined → h !! r = None)
    ∧ length combined = length (concat sequences)
    ∧ values h' combined = concat (chain_blocks 0 (values h <$> sequences)).
Proof.
  intros h sequences.
  apply (chain_appends_shifted_clones (F:=Z) h sequences).
  - vm_compute. reflexivity.
  - apply (bool_decide_unpack _). vm_compute. exact I.
Defined.

Lemma chain_docstring_example_witness :
  let h : Store Z :=
    <[1%positive := example_rep EXCIT [1; 1] [0; 0; 0; 0; 0; 0] [1; 3]]>
      (<[2%positive := example_rep EXCIT [1] [0; 0; 0] [2]]> ∅) in
  ∃ combined h',
    chain false [[1%positive]; [2%positive]] h = Ok (combined, h')
    ∧ Sequence_get_contrasts (values h' combined) = [1; 3; 5]
    ∧ Sequence_get_contrasts (values h' [1%positive]) = [1; 3]
    ∧ Sequence_get_contrasts (values h' [2%positive]) = [2].
Proof.
  intros h.
  apply (chain_docstring_example (F:=Z) h [1%positive] [2%positive]);
    vm_compute; reflexivity.
Defined.

Lemma chain_no_collision_witness :
  let h : Store Z :=
    <[1%positive := example_rep EXCIT [1] [0; 0; 0] [1]]>
      (<[2%positive := example_rep EXCIT [1; 1] [0; 0; 0; 0; 0; 0] [0; 1]]>
         (<[3%positive := example_rep EXCIT [1] [0; 0; 0] [1]]> ∅)) in
  let sequences := [[1%positive]; [2%positive]; [3%positive]] in
  ∃ combined h',
    chain false sequences h = Ok (combined, h')
    ∧ values h' combined = concat (chain_blocks 0 (values h <$> sequences))
    ∧ ∀ (i j : nat) (bi bj : list (Repetition Z)) (c : Z),
        (i < j)%nat →
        chain_blocks 0 (values h <$> sequences) !! i = Some bi →
        chain_blocks 0 (values h <$> sequences) !! j = Some bj →
        (∀ (k : nat) (s : list loc),
           (i < k < j)%nat → sequences !! k = Some s →
           positive_tags (values h s) ≠ []) →
        c ∈ positive_tags bi → c ∉ positive_tags bj.
Proof.
  intros h sequences.
  apply (chain_no_collision (F:=Z) h sequences).
  - vm_compute. reflexivity.
  - apply (bool_decide_unpack _). vm_compute. exact I.
  - vm_compute. reflexivity.
Defined.

(** Two repetitions on the CPU with the tags [2] and [1]: after
    [shift_contrasts(3)] on the sequence [cpu()] returns, the repetitions of
    the original have the tags [5] and [4]. *)
Lemma cpu_copy_shift_changes_original :
  let h : Store Z :=
    <[1%positive := example_rep EXCIT [1] [0; 0; 0] [2]]>
      (<[2%positive := example_rep EXCIT [1] [0; 0; 0] [1]]> ∅) in
  match Sequence_cpu_objects [1%positive; 2%positive] h with
  | Ok (copy, h1) =>
      match Sequence_shift_contrasts 3 copy h1 with
      | Ok (_, h2) =>
          tags (values h1 [1%positive; 2%positive]) = [2; 1]
          ∧ tags (values h2 [1%positive; 2%positive]) = [5; 4]
      | Raise _ => False
      end
  | Raise _ => False
  end.
Proof. vm_compute. by split. Qed.

Lemma cpu_copy_shares_adc_usage_witness :
  let h : Store Z :=
    <[1%positive := example_rep EXCIT [1] [0; 0; 0] [2]]>
      (<[2%positive := example_rep EXCIT [1] [0; 0; 0] [1]]> ∅) in
  let refs := [1%positive; 2%positive; 1%positive] in
  ∃ copy h1 h2,
    Sequence_cpu_objects refs h = Ok (copy, h1)
    ∧ length copy = length refs
    ∧ (∀ r, r ∈ copy → h !! r = None)
    ∧ Sequence_cpu (values h refs) = Ok (values h1 copy)
    ∧ (∀ r rep, h !! r = Some rep → h1 !! r = Some rep)
    ∧ Sequence_shift_contrasts 3 copy h1 = Ok ((), h2)
    ∧ ∀ r rep t,
        h !! r = Some rep → tensor_of h r = Some t →
        h2 !! r =
          Some (Nat.iter (tensor_uses h t refs)
                  (Repetition_shift_contrasts 3) rep).
Proof.
  intros h refs.
  apply (cpu_copy_shares_adc_usage (F:=Z) 3 refs h).
  - by vm_compute.
  - vm_compute. reflexivity.
Defined.
